(** * VMAS navigation scenario: a shallow embedding and its properties

    The development follows [vmas/scenarios/navigation.py]: the validated
    configuration, [make_world], the reward engine ([reward],
    [agent_reward]), [observation], [done] and [reset_world_at].

    Modelling decisions.
    - A torch scalar is a real number ([R]); [torch.linalg.vector_norm] on a
      2-vector is [sqrt (x*x + y*y)].  Rounding is not modelled.
    - A tensor of shape [(batch_dim, ...)] is a vector [vec _ B] indexed by the
      environment [fin B]: every tensor of one world shares the batch size, so
      shape mismatches are excluded by typing.
    - Python exceptions are the [Raise] branch of the [result] monad.
    - The collaborators that are not part of the scenario file (the world's
      [collides] and [get_distance], the lidar's [measure], the random
      placement utilities, the integrator) are parameters. *)

From Stdlib Require Import Reals Lra ZArith.
From stdpp Require Import base list vector gmap strings.

(** ** Exceptions and the result monad *)

Inductive exn : Type :=
  | ValidationError | AssertionError | AttributeError
  | IndexError | TypeError | ZeroDivisionError | RuntimeError.

Inductive result (A : Type) : Type :=
  | Ok (a : A)
  | Raise (e : exn).
Arguments Ok {A} a.
Arguments Raise {A} e.

#[global] Instance result_ret : MRet result := λ A a, Ok a.
#[global] Instance result_bind : MBind result := λ A B f m,
  match m with Ok a => f a | Raise e => Raise e end.
#[global] Instance result_fmap : FMap result := λ A B f m,
  match m with Ok a => Ok (f a) | Raise e => Raise e end.

Definition py_assert (b : bool) : result unit :=
  if b then Ok tt else Raise AssertionError.

(** Reading an attribute that may not have been set yet. *)
Definition getattr {A} (o : option A) : result A :=
  match o with Some a => Ok a | None => Raise AttributeError end.

(** [l[k]] with Python's negative indices. *)
Definition py_getitem {A} (l : list A) (k : Z) : result A :=
  let n := Z.of_nat (length l) in
  let k' := if (k <? 0)%Z then (k + n)%Z else k in
  if ((0 <=? k') && (k' <? n))%Z
  then match l !! Z.to_nat k' with Some a => Ok a | None => Raise IndexError end
  else Raise IndexError.

(** [a // b] on Python ints. *)
Definition py_floordiv (a b : Z) : result Z :=
  if (b =? 0)%Z then Raise ZeroDivisionError else Ok (a / b)%Z.

(** Monadic traversal of a list, left to right. *)
Fixpoint mapM_result {A C} (f : A → result C) (l : list A) : result (list C) :=
  match l with
  | [] => Ok []
  | a :: l' => c ← f a; cs ← mapM_result f l'; Ok (c :: cs)
  end.

(** ** Scalars and 2-vectors *)

#[global] Instance Rlt_decision (x y : R) : Decision (x < y)%R := Rlt_dec x y.
#[global] Instance Rle_decision (x y : R) : Decision (x <= y)%R := Rle_dec x y.

Definition Rltb (x y : R) : bool := bool_decide (x < y)%R.
Definition Rleb (x y : R) : bool := bool_decide (x <= y)%R.

Definition V2 : Type := (R * R)%type.

Definition v2_sub (p q : V2) : V2 := ((p.1 - q.1)%R, (p.2 - q.2)%R).

(** [torch.linalg.vector_norm] of a 2-vector (the 2-norm). *)
Definition vector_norm (p : V2) : R := sqrt (p.1 * p.1 + p.2 * p.2).

Definition sum_R (l : list R) : R := foldr Rplus 0%R l.

(** ** Batched tensors *)

Section Tensor.
Context {B : nat}.

Definition zeros : vec R B := vreplicate B 0%R.
Definition zeros2 : vec V2 B := vreplicate B (0%R, 0%R).

(** [t[:] = c] *)
Definition fill {A} (c : A) (t : vec A B) : vec A B := vmap (λ _, c) t.

(** [t[mask] = c] *)
Definition masked_set (mask : vec bool B) (c : R) (t : vec R B) : vec R B :=
  vzip_with (λ (m : bool) x, if m then c else x) mask t.

(** [t[mask] += c] *)
Definition masked_add (mask : vec bool B) (c : R) (t : vec R B) : vec R B :=
  vzip_with (λ (m : bool) x, if m then (x + c)%R else x) mask t.

(** [torch.stack(l, dim=-1).all(-1)] for a list of [(B,)] boolean tensors;
    stacking an empty list is a runtime error in torch. *)
Definition stack_all (l : list (vec bool B)) : result (vec bool B) :=
  match l with
  | [] => Raise RuntimeError
  | x :: xs => Ok (foldl (vzip_with andb) x xs)
  end.

(** [torch.cat(l, dim=-1)] for a list of [(B, k_i)] tensors, each given as
    a batch of rows. *)
Definition cat_last (l : list (vec (list R) B)) : result (vec (list R) B) :=
  match l with
  | [] => Raise RuntimeError
  | x :: xs => Ok (foldl (vzip_with app) x xs)
  end.

Definition row_of_V2 (p : V2) : list R := [p.1; p.2].
End Tensor.

(** ** Configuration *)

Record BaseNavigationConfig : Type := {
  n_agents : Z;
  collisions : bool;
  world_spawning_x : Z;
  world_spawning_y : Z;
  enforce_bounds : bool;
  agents_with_same_goal : Z;
  split_goals : bool;
  observe_all_goals : bool;
  lidar_range : R;
  agent_radius : R;
  comms_range : R;
  n_lidar_rays : Z;
  shared_rew : bool;
  pos_shaping_factor : R;
  final_reward : R;
  agent_collision_penalty : R;
}.

(** Keyword arguments are a dict from field names to Python values. *)
Inductive value : Type :=
  | VInt (z : Z)
  | VBool (b : bool)
  | VFloat (r : R).

Inductive field_type : Type := TInt | TBool | TFloat.

Definition fields : list (string * field_type) :=
  [ ("n_agents", TInt); ("collisions", TBool);
    ("world_spawning_x", TInt); ("world_spawning_y", TInt);
    ("enforce_bounds", TBool); ("agents_with_same_goal", TInt);
    ("split_goals", TBool); ("observe_all_goals", TBool);
    ("lidar_range", TFloat); ("agent_radius", TFloat);
    ("comms_range", TFloat); ("n_lidar_rays", TInt);
    ("shared_rew", TBool); ("pos_shaping_factor", TFloat);
    ("final_reward", TFloat); ("agent_collision_penalty", TFloat) ]%string.

Definition field_names : gset string := list_to_set (fields.*1).

(** Validation of one field by the constructor of the model: an absent
    keyword takes the declared default, a value of the declared type is
    kept (an int is taken for a float field), any other value is refused. *)
Definition get_int (kw : gmap string value) (k : string) (d : Z) : result Z :=
  match kw !! k with
  | None => Ok d
  | Some (VInt z) => Ok z
  | Some _ => Raise ValidationError
  end.

Definition get_bool (kw : gmap string value) (k : string) (d : bool) : result bool :=
  match kw !! k with
  | None => Ok d
  | Some (VBool b) => Ok b
  | Some _ => Raise ValidationError
  end.

Definition get_float (kw : gmap string value) (k : string) (d : R) : result R :=
  match kw !! k with
  | None => Ok d
  | Some (VFloat r) => Ok r
  | Some (VInt z) => Ok (IZR z)
  | Some _ => Raise ValidationError
  end.

(** The constructor [BaseNavigationConfig] applied to keyword arguments: the
    model is declared with extra = forbid, so a key that is not a field is rejected; absent fields
    take the declared defaults. *)
Definition BaseNavigationConfig_init (kw : gmap string value)
  : result BaseNavigationConfig :=
  if bool_decide (dom kw ⊆ field_names) then
    f_n_agents ← get_int kw "n_agents" 4;
    f_collisions ← get_bool kw "collisions" true;
    f_world_spawning_x ← get_int kw "world_spawning_x" 1;
    f_world_spawning_y ← get_int kw "world_spawning_y" 1;
    f_enforce_bounds ← get_bool kw "enforce_bounds" false;
    f_agents_with_same_goal ← get_int kw "agents_with_same_goal" 1;
    f_split_goals ← get_bool kw "split_goals" false;
    f_observe_all_goals ← get_bool kw "observe_all_goals" false;
    f_lidar_range ← get_float kw "lidar_range" (35 / 100)%R;
    f_agent_radius ← get_float kw "agent_radius" (1 / 10)%R;
    f_comms_range ← get_float kw "comms_range" 0%R;
    f_n_lidar_rays ← get_int kw "n_lidar_rays" 12;
    f_shared_rew ← get_bool kw "shared_rew" true;
    f_pos_shaping_factor ← get_float kw "pos_shaping_factor" 1%R;
    f_final_reward ← get_float kw "final_reward" (1 / 100)%R;
    f_agent_collision_penalty ← get_float kw "agent_collision_penalty" (-1)%R;
    Ok {| n_agents := f_n_agents;
          collisions := f_collisions;
          world_spawning_x := f_world_spawning_x;
          world_spawning_y := f_world_spawning_y;
          enforce_bounds := f_enforce_bounds;
          agents_with_same_goal := f_agents_with_same_goal;
          split_goals := f_split_goals;
          observe_all_goals := f_observe_all_goals;
          lidar_range := f_lidar_range;
          agent_radius := f_agent_radius;
          comms_range := f_comms_range;
          n_lidar_rays := f_n_lidar_rays;
          shared_rew := f_shared_rew;
          pos_shaping_factor := f_pos_shaping_factor;
          final_reward := f_final_reward;
          agent_collision_penalty := f_agent_collision_penalty |}
  else Raise ValidationError.

(** The [config] argument of [make_world]: [None], an instance of
    [BaseNavigationConfig] (or of a subclass), or any other object. *)
Inductive config_arg : Type :=
  | CfgNone
  | CfgInstance (c : BaseNavigationConfig)
  | CfgNotInstance.

(** ** World data *)

(** The part of an entity the simulator core owns: batched position and
    velocity, the radius of its sphere shape and the collide flag. *)
Record Entity (B : nat) : Type := {
  pos : vec V2 B;
  vel : vec V2 B;
  shape_radius : R;
  collide : bool;
}.
Arguments pos {B} _.
Arguments vel {B} _.
Arguments shape_radius {B} _.
Arguments collide {B} _.

Record Lidar : Type := {
  n_rays : Z;
  max_range : R;
}.

(** An agent with its goal landmark and the attributes the scenario attaches
    to it.  Every agent owns a landmark of its own (agents that share a goal
    have landmarks at the same position), so the landmark is stored in the
    agent.  [pos_shaping], [distance_to_goal] and [on_goal] do not exist until
    they are first assigned. *)
Record Agent (B : nat) : Type := {
  state : Entity B;
  sensors : option (list Lidar);
  goal : Entity B;
  pos_rew : vec R B;
  agent_collision_rew : vec R B;
  pos_shaping : option (vec R B);
  distance_to_goal : option (vec R B);
  on_goal : option (vec bool B);
}.
Arguments state {B} _.
Arguments sensors {B} _.
Arguments goal {B} _.
Arguments pos_rew {B} _.
Arguments agent_collision_rew {B} _.
Arguments pos_shaping {B} _.
Arguments distance_to_goal {B} _.
Arguments on_goal {B} _.

(** The scenario object ([self]) together with [self.world.agents]. *)
Record Scenario (B : nat) : Type := {
  config : BaseNavigationConfig;
  min_distance_between_entities : R;
  min_collision_distance : R;
  x_semidim : option Z;
  y_semidim : option Z;
  world_agents : list (Agent B);
  self_pos_rew : vec R B;
  self_final_rew : vec R B;
  all_goal_reached : option (vec bool B);
}.
Arguments config {B} _.
Arguments min_distance_between_entities {B} _.
Arguments min_collision_distance {B} _.
Arguments x_semidim {B} _.
Arguments y_semidim {B} _.
Arguments world_agents {B} _.
Arguments self_pos_rew {B} _.
Arguments self_final_rew {B} _.
Arguments all_goal_reached {B} _.

Section Updates.
Context {B : nat}.

Definition with_pos (p : vec V2 B) (ent : Entity B) : Entity B :=
  {| pos := p; vel := vel ent;
     shape_radius := shape_radius ent; collide := collide ent |}.

Definition with_vel (v : vec V2 B) (ent : Entity B) : Entity B :=
  {| pos := pos ent; vel := v;
     shape_radius := shape_radius ent; collide := collide ent |}.

Definition with_state (st : Entity B) (a : Agent B) : Agent B :=
  {| state := st; sensors := sensors a; goal := goal a;
     pos_rew := pos_rew a; agent_collision_rew := agent_collision_rew a;
     pos_shaping := pos_shaping a; distance_to_goal := distance_to_goal a;
     on_goal := on_goal a |}.

Definition with_goal (g : Entity B) (a : Agent B) : Agent B :=
  {| state := state a; sensors := sensors a; goal := g;
     pos_rew := pos_rew a; agent_collision_rew := agent_collision_rew a;
     pos_shaping := pos_shaping a; distance_to_goal := distance_to_goal a;
     on_goal := on_goal a |}.

Definition with_pos_shaping (v : vec R B) (a : Agent B) : Agent B :=
  {| state := state a; sensors := sensors a; goal := goal a;
     pos_rew := pos_rew a; agent_collision_rew := agent_collision_rew a;
     pos_shaping := Some v; distance_to_goal := distance_to_goal a;
     on_goal := on_goal a |}.

Definition with_agent_collision_rew (v : vec R B) (a : Agent B) : Agent B :=
  {| state := state a; sensors := sensors a; goal := goal a;
     pos_rew := pos_rew a; agent_collision_rew := v;
     pos_shaping := pos_shaping a; distance_to_goal := distance_to_goal a;
     on_goal := on_goal a |}.

(** [Entity.set_pos(p, batch_index)]: the whole batch, or one environment. *)
Definition set_pos (p : fin B → V2) (batch_index : option (fin B))
    (ent : Entity B) : Entity B :=
  match batch_index with
  | None => with_pos (fun_to_vec p) ent
  | Some e => with_pos (vinsert e (p e) (pos ent)) ent
  end.

(** Batched distance between an agent and its goal landmark:
    [vector_norm(agent.state.pos - agent.goal.state.pos, dim=-1)]. *)
Definition goal_distance (a : Agent B) : vec R B :=
  vzip_with (λ p g, vector_norm (v2_sub p g)) (pos (state a)) (pos (goal a)).
End Updates.

(** ** [make_world] *)

Section MakeWorld.
(** Radius of the default shape [Sphere()] a landmark gets when none is
    given; it is declared in the simulator core. *)
Variable sphere_default_radius : R.

Definition new_agent (B : nat) (cfg : BaseNavigationConfig) : Agent B :=
  {| state := {| pos := zeros2; vel := zeros2;
                 shape_radius := agent_radius cfg;
                 collide := collisions cfg |};
     sensors := if collisions cfg
                then Some [ {| n_rays := n_lidar_rays cfg;
                               max_range := lidar_range cfg |} ]
                else None;
     goal := {| pos := zeros2; vel := zeros2;
                shape_radius := sphere_default_radius;
                collide := false |};
     pos_rew := zeros;
     agent_collision_rew := zeros;
     pos_shaping := None;
     distance_to_goal := None;
     on_goal := None |}.

(** The three assertions on the grouping of goals. *)
Definition check_config (cfg : BaseNavigationConfig) : result unit :=
  _ ← py_assert ((1 <=? agents_with_same_goal cfg)%Z
                 && (agents_with_same_goal cfg <=? n_agents cfg)%Z);
  _ ← (if (1 <? agents_with_same_goal cfg)%Z
       then py_assert (negb (collisions cfg)) else Ok tt);
  if split_goals cfg
  then py_assert ((n_agents cfg `mod` 2 =? 0)%Z
                  && (agents_with_same_goal cfg =? n_agents cfg `div` 2)%Z)
  else Ok tt.

Definition make_world (batch_dim : nat) (cfg_arg : config_arg)
    (kwargs : gmap string value) : result (Scenario batch_dim) :=
  cfg ← match cfg_arg with
        | CfgNone => BaseNavigationConfig_init kwargs
        | CfgInstance c => Ok c
        | CfgNotInstance => Raise AssertionError
        end;
  _ ← check_config cfg;
  Ok {| config := cfg;
        min_distance_between_entities := (agent_radius cfg * 2 + 5 / 100)%R;
        min_collision_distance := (5 / 1000)%R;
        x_semidim := if enforce_bounds cfg
                     then Some (world_spawning_x cfg) else None;
        y_semidim := if enforce_bounds cfg
                     then Some (world_spawning_y cfg) else None;
        world_agents := replicate (Z.to_nat (n_agents cfg))
                                  (new_agent batch_dim cfg);
        self_pos_rew := zeros;
        self_final_rew := zeros;
        all_goal_reached := None |}.
End MakeWorld.

(** ** The reward engine, the observation encoder and the termination check *)

Section Engine.
Context {B : nat}.

(** [World.collides(a, b)] and [World.get_distance(a, b)] of the
    simulator core. *)
Variable world_collides : Entity B → Entity B → bool.
Variable world_get_distance : Entity B → Entity B → vec R B.

(** [Lidar.measure()]: one row of ranges per environment; it depends on
    the entities of the world and on the agent that carries the sensor. *)
Variable lidar_measure : Lidar → list (Entity B) → nat → vec (list R) B.

Definition lookup_agent (s : Scenario B) (i : nat) : result (Agent B) :=
  match world_agents s !! i with
  | Some a => Ok a
  | None => Raise IndexError
  end.

(** [agent_reward]: returns the updated agent and [agent.pos_rew]. *)
Definition agent_reward (cfg : BaseNavigationConfig) (agent : Agent B)
    : result (Agent B * vec R B) :=
  let distance := goal_distance agent in
  let on := vmap (λ d, Rltb d (shape_radius (goal agent))) distance in
  let shaping := vmap (λ d, (d * pos_shaping_factor cfg)%R) distance in
  old ← getattr (pos_shaping agent);
  let rew := vzip_with Rminus old shaping in
  Ok ({| state := state agent; sensors := sensors agent; goal := goal agent;
         pos_rew := rew;
         agent_collision_rew := agent_collision_rew agent;
         pos_shaping := Some shaping;
         distance_to_goal := Some distance;
         on_goal := Some on |}, rew).

(** The first loop of [reward]:
    [self.pos_rew += self.agent_reward(a); a.agent_collision_rew[:] = 0]. *)
Fixpoint progress_loop (cfg : BaseNavigationConfig) (agents : list (Agent B))
    (acc : vec R B) : result (list (Agent B) * vec R B) :=
  match agents with
  | [] => Ok ([], acc)
  | a :: rest =>
      '(a', r) ← agent_reward cfg a;
      let a'' := with_agent_collision_rew
                   (fill 0%R (agent_collision_rew a')) a' in
      '(rest', acc') ← progress_loop cfg rest (vzip_with Rplus acc r);
      Ok (a'' :: rest', acc')
  end.

(** The index pairs visited by the two nested [enumerate] loops. *)
Definition index_pairs (n : nat) : list (nat * nat) :=
  i ← seq 0 n; j ← seq 0 n; [(i, j)].

(** Did the pair [(a, b)] collide in each environment: the mask
    [distance <= self.min_collision_distance], when the world says the two
    can collide at all. *)
Definition collision_mask (thr : R) (a b : Entity B) : vec bool B :=
  vmap (λ d, Rleb d thr) (world_get_distance a b).

(** Body of the nested loops for one pair of indices. *)
Definition collision_pair (thr pen : R) (agents : list (Agent B))
    (ij : nat * nat) : list (Agent B) :=
  if bool_decide (ij.1 ≤ ij.2) then agents
  else
    match agents !! ij.1, agents !! ij.2 with
    | Some a, Some b =>
        if world_collides (state a) (state b) then
          let mask := collision_mask thr (state a) (state b) in
          let a' := with_agent_collision_rew
                      (masked_add mask pen (agent_collision_rew a)) a in
          let b' := with_agent_collision_rew
                      (masked_add mask pen (agent_collision_rew b)) b in
          <[ij.2 := b']> (<[ij.1 := a']> agents)
        else agents
    | _, _ => agents
    end.

Definition collision_loop (thr pen : R) (agents : list (Agent B))
    : list (Agent B) :=
  foldl (collision_pair thr pen) agents (index_pairs (length agents)).

(** The branch [if is_first:] of [reward]. *)
Definition recompute (s : Scenario B) : result (Scenario B) :=
  let cfg := config s in
  let pos0 := fill 0%R (self_pos_rew s) in
  let fin0 := fill 0%R (self_final_rew s) in
  '(agents1, posr) ← progress_loop cfg (world_agents s) pos0;
  on ← mapM_result (λ a, getattr (on_goal a)) agents1;
  reached ← stack_all on;
  let finr := masked_set reached (final_reward cfg) fin0 in
  let agents2 := collision_loop (min_collision_distance s)
                                (agent_collision_penalty cfg) agents1 in
  Ok {| config := cfg;
        min_distance_between_entities := min_distance_between_entities s;
        min_collision_distance := min_collision_distance s;
        x_semidim := x_semidim s;
        y_semidim := y_semidim s;
        world_agents := agents2;
        self_pos_rew := posr;
        self_final_rew := finr;
        all_goal_reached := Some reached |}.

(** [reward(agent)], the agent being the one at index [i] of
    [world.agents]; [agent == self.world.agents[0]] is identity of
    objects, that is equality of indices. *)
Definition reward (s : Scenario B) (i : nat)
    : result (Scenario B * vec R B) :=
  _ ← lookup_agent s i;
  _ ← py_getitem (world_agents s) 0;
  let is_first := bool_decide (i = 0) in
  s' ← (if is_first then recompute s else Ok s);
  agent ← lookup_agent s' i;
  let pos_reward :=
    if shared_rew (config s') then self_pos_rew s' else pos_rew agent in
  Ok (s', vzip_with Rplus (vzip_with Rplus pos_reward (self_final_rew s'))
                    (agent_collision_rew agent)).

(** [observation(agent)]: one row per environment. *)
Definition observation (s : Scenario B) (i : nat)
    : result (vec (list R) B) :=
  agent ← lookup_agent s i;
  let rel (a : Agent B) :=
    vmap row_of_V2 (vzip_with v2_sub (pos (state agent)) (pos (goal a))) in
  let goal_poses :=
    if observe_all_goals (config s)
    then rel <$> world_agents s
    else [rel agent] in
  lidar ← (if collisions (config s) then
             match sensors agent with
             | None => Raise TypeError
             | Some l =>
                 sensor ← py_getitem l 0;
                 Ok [vmap (fmap (λ m, (max_range sensor - m)%R))
                       (lidar_measure sensor
                          (state <$> world_agents s) i)]
             end
           else Ok []);
  cat_last ([vmap row_of_V2 (pos (state agent));
             vmap row_of_V2 (vel (state agent))]
            ++ goal_poses ++ lidar).

(** [done()]: compares with the radius of the agent's own shape. *)
Definition done (s : Scenario B) : result (vec bool B) :=
  stack_all
    ((λ agent,
        vmap (λ d, Rltb d (shape_radius (state agent)))
             (goal_distance agent))
     <$> world_agents s).
End Engine.

(** ** [Scenario.reset_world_at] *)

Section Reset.
Context {B : nat}.

(** Outcome of the random placement utilities: [spawn k e] is where
    [spawn_entities_randomly] puts agent [k] in environment [e], and
    [draw k e] is the [k]-th position returned by
    [find_random_pos_for_entity] for environment [e]. *)
Variable spawn : nat → fin B → V2.
Variable draw : nat → fin B → V2.

Definition goal_index (cfg : BaseNavigationConfig) (i : nat) : result Z :=
  if split_goals cfg
  then py_floordiv (Z.of_nat i) (agents_with_same_goal cfg)
  else Ok (if (Z.of_nat i <? agents_with_same_goal cfg)%Z
           then 0%Z else Z.of_nat i).

(** Body of the last loop of [reset_world_at] for the agent at index [i]. *)
Definition reset_agent (cfg : BaseNavigationConfig)
    (env_index : option (fin B)) (goal_poses : list (fin B → V2))
    (i : nat) (agent : Agent B) : result (Agent B) :=
  gi ← goal_index cfg i;
  gp ← py_getitem goal_poses gi;
  let agent1 := with_goal (set_pos gp env_index (goal agent)) agent in
  match env_index with
  | None =>
      Ok (with_pos_shaping
            (vmap (λ d, (d * pos_shaping_factor cfg)%R)
                  (goal_distance agent1)) agent1)
  | Some e =>
      old ← getattr (pos_shaping agent1);
      Ok (with_pos_shaping
            (vinsert e
               (vector_norm (v2_sub (pos (state agent1) !!! e)
                                    (pos (goal agent1) !!! e))
                * pos_shaping_factor cfg)%R old) agent1)
  end.

Fixpoint reset_loop (cfg : BaseNavigationConfig)
    (env_index : option (fin B)) (goal_poses : list (fin B → V2))
    (i : nat) (agents : list (Agent B)) : result (list (Agent B)) :=
  match agents with
  | [] => Ok []
  | a :: rest =>
      a' ← reset_agent cfg env_index goal_poses i a;
      rest' ← reset_loop cfg env_index goal_poses (S i) rest;
      Ok (a' :: rest')
  end.

(** [spawn_entities_randomly] on the agents. *)
Definition spawn_agents (env_index : option (fin B))
    (agents : list (Agent B)) : list (Agent B) :=
  imap (λ k a, with_state (set_pos (spawn k) env_index (state a)) a) agents.

Definition reset_world_at (env_index : option (fin B)) (s : Scenario B)
    : result (Scenario B) :=
  let agents1 := spawn_agents env_index (world_agents s) in
  let goal_poses := draw <$> seq 0 (length agents1) in
  agents2 ← reset_loop (config s) env_index goal_poses 0 agents1;
  Ok {| config := config s;
        min_distance_between_entities := min_distance_between_entities s;
        min_collision_distance := min_collision_distance s;
        x_semidim := x_semidim s;
        y_semidim := y_semidim s;
        world_agents := agents2;
        self_pos_rew := self_pos_rew s;
        self_final_rew := self_final_rew s;
        all_goal_reached := all_goal_reached s |}.
End Reset.

(** ** The integrator and trajectories *)

Section Dynamics.
Context {B : nat}.
Variable world_collides : Entity B → Entity B → bool.
Variable world_get_distance : Entity B → Entity B → vec R B.

(** One step of the integrator: agent [k] gets the position and the
    velocity [mv k]; landmarks do not move. *)
Definition world_step (mv : nat → vec V2 B * vec V2 B) (s : Scenario B)
    : Scenario B :=
  {| config := config s;
     min_distance_between_entities := min_distance_between_entities s;
     min_collision_distance := min_collision_distance s;
     x_semidim := x_semidim s;
     y_semidim := y_semidim s;
     world_agents :=
       imap (λ k a, with_state
                      (with_vel (mv k).2 (with_pos (mv k).1 (state a))) a)
            (world_agents s);
     self_pos_rew := self_pos_rew s;
     self_final_rew := self_final_rew s;
     all_goal_reached := all_goal_reached s |}.

(** The environment asks the reward of the agents one after the other. *)
Fixpoint rewards_from (s : Scenario B) (idx : list nat)
    : result (Scenario B * list (vec R B)) :=
  match idx with
  | [] => Ok (s, [])
  | i :: rest =>
      '(s1, r) ← reward world_collides world_get_distance s i;
      '(s2, rs) ← rewards_from s1 rest;
      Ok (s2, r :: rs)
  end.

Definition env_step (mv : nat → vec V2 B * vec V2 B) (s : Scenario B)
    : result (Scenario B * list (vec R B)) :=
  rewards_from (world_step mv s) (seq 0 (length (world_agents s))).

(** The states and rewards after each step of a trajectory. *)
Fixpoint run (moves : list (nat → vec V2 B * vec V2 B)) (s : Scenario B)
    : result (list (Scenario B * list (vec R B))) :=
  match moves with
  | [] => Ok []
  | mv :: rest =>
      sr ← env_step mv s;
      tr ← run rest sr.1;
      Ok (sr :: tr)
  end.

(** Per-environment views used in the statements. *)
Definition dist_to_goal (s : Scenario B) (i : nat) (e : fin B) : R :=
  match world_agents s !! i with
  | Some a => goal_distance a !!! e
  | None => 0%R
  end.

Definition step_pos_rew (s : Scenario B) (i : nat) (e : fin B) : R :=
  match world_agents s !! i with
  | Some a => pos_rew a !!! e
  | None => 0%R
  end.

Definition final_state (s : Scenario B)
    (tr : list (Scenario B * list (vec R B))) : Scenario B :=
  match last tr with Some sr => sr.1 | None => s end.
End Dynamics.

(** ** [HeuristicPolicy.compute_action]: what is handed to the QP solver

    The action itself is the output of the convex solver behind
    [CvxpyLayer], which is not part of the scenario file; only the
    quantities computed before the call and the constraints of the program
    are embedded. *)

Record HeuristicPolicy : Type := {
  clf_epsilon : R;
  clf_slack : R;
}.

(** The first six channels of one row of the observation. *)
Record ObservationRow : Type := {
  obs_pos : V2;
  obs_vel : V2;
  obs_goal_delta : V2;
}.

Section Heuristic.
Local Open Scope R_scope.

Definition goal_pos (o : ObservationRow) : V2 :=
  (-1 * ((obs_goal_delta o).1 - (obs_pos o).1),
   -1 * ((obs_goal_delta o).2 - (obs_pos o).2)).

Definition V_value (o : ObservationRow) : R :=
  let p := obs_pos o in let v := obs_vel o in let g := goal_pos o in
  (p.1 - g.1) * (p.1 - g.1) + (5 / 10) * (p.1 - g.1) * v.1 + v.1 * v.1
  + (p.2 - g.2) * (p.2 - g.2) + (5 / 10) * (p.2 - g.2) * v.2 + v.2 * v.2.

Definition LfV_val (o : ObservationRow) : R :=
  let p := obs_pos o in let v := obs_vel o in let g := goal_pos o in
  (2 * (p.1 - g.1) + v.1) * v.1 + (2 * (p.2 - g.2) + v.2) * v.2.

Definition LgV_vals (o : ObservationRow) : V2 :=
  let p := obs_pos o in let v := obs_vel o in let g := goal_pos o in
  ((5 / 10) * (p.1 - g.1) + 2 * v.1, (5 / 10) * (p.2 - g.2) + 2 * v.2).

(** The constraints of the program in the variables [u] and [slack]. *)
Definition qp_constraints (pol : HeuristicPolicy) (u_range : R)
    (o : ObservationRow) (u : V2) (slack : R) : Prop :=
  u.1 <= u_range ∧ u.2 <= u_range
  ∧ - u_range <= u.1 ∧ - u_range <= u.2
  ∧ LfV_val o + ((LgV_vals o).1 * u.1 + (LgV_vals o).2 * u.2)
    + clf_epsilon pol * V_value o + slack <= 0.

Definition qp_objective (pol : HeuristicPolicy) (u : V2) (slack : R) : R :=
  (u.1 * u.1 + u.2 * u.2) + clf_slack pol * (slack * slack).
End Heuristic.

(** * Vocabulary of the statements *)

(** ** Configurations *)

Definition has_type (v : value) (t : field_type) : bool :=
  match v, t with
  | VInt _, TInt | VBool _, TBool | VFloat _, TFloat | VInt _, TFloat => true
  | _, _ => false
  end.

(** The keyword arguments that name a field carry a value of its type. *)
Definition well_typed_kwargs (kw : gmap string value) : Prop :=
  ∀ k v t, kw !! k = Some v → (k, t) ∈ fields → has_type v t = true.

(** The grouping and splitting invariants of the configuration are broken. *)
Definition grouping_invalid (c : BaseNavigationConfig) : Prop :=
  ¬ (1 ≤ agents_with_same_goal c ≤ n_agents c)%Z
  ∨ ((1 < agents_with_same_goal c)%Z ∧ collisions c = true)
  ∨ (split_goals c = true
     ∧ ((n_agents c `mod` 2)%Z ≠ 0%Z
        ∨ agents_with_same_goal c ≠ (n_agents c `div` 2)%Z)).

(** The configuration [make_world] works with, when there is one. *)
Definition config_in_force (arg : config_arg) (kw : gmap string value)
    : result BaseNavigationConfig :=
  match arg with
  | CfgNone => BaseNavigationConfig_init kw
  | CfgInstance c => Ok c
  | CfgNotInstance => Raise AssertionError
  end.



(** ** Worlds, agents and rewards *)

Section Vocabulary.
Context {B : nat}.

(** The formula of the goal index as a plain function of the agent index. *)
Definition goal_index_of (cfg : BaseNavigationConfig) (i : nat) : Z :=
  if split_goals cfg then (Z.of_nat i `div` agents_with_same_goal cfg)%Z
  else if (Z.of_nat i <? agents_with_same_goal cfg)%Z then 0%Z
       else Z.of_nat i.

(** The environments a reset touches. *)
Definition in_scope (env_index : option (fin B)) (e : fin B) : Prop :=
  match env_index with None => True | Some e0 => e0 = e end.

(** The shape of the world [make_world] builds is kept by the scenario. *)
Definition agents_match_config (s : Scenario B) : Prop :=
  length (world_agents s) = Z.to_nat (n_agents (config s)).

(** Every agent has a shaping baseline (a full reset has happened). *)
Definition baselines_set (s : Scenario B) : Prop :=
  ∀ a, a ∈ world_agents s → is_Some (pos_shaping a).

(** The sensors are the ones [make_world] wires: one lidar when collisions
    are enabled, none otherwise. *)
Definition sensors_wired (s : Scenario B) : Prop :=
  ∀ a, a ∈ world_agents s →
    sensors a =
    if collisions (config s)
    then Some [ {| n_rays := n_lidar_rays (config s);
                   max_range := lidar_range (config s) |} ]
    else None.

(** Is the agent on its goal in environment [e]: the test of
    [agent_reward], against the radius of the goal's shape. *)
Definition on_goal_at (a : Agent B) (e : fin B) : bool :=
  Rltb (goal_distance a !!! e) (shape_radius (goal a)).

(** The agent [agent_reward] leaves behind. *)
Definition rewarded (cfg : BaseNavigationConfig) (old : vec R B)
    (a : Agent B) : Agent B :=
  {| state := state a; sensors := sensors a; goal := goal a;
     pos_rew :=
       vzip_with Rminus old
         (vmap (λ d, (d * pos_shaping_factor cfg)%R) (goal_distance a));
     agent_collision_rew := agent_collision_rew a;
     pos_shaping :=
       Some (vmap (λ d, (d * pos_shaping_factor cfg)%R) (goal_distance a));
     distance_to_goal := Some (goal_distance a);
     on_goal :=
       Some (vmap (λ d, Rltb d (shape_radius (goal a))) (goal_distance a)) |}.

(** The agents after the first loop of [reward]. *)
Definition progressed (cfg : BaseNavigationConfig) (old : vec R B)
    (a : Agent B) : Agent B :=
  with_agent_collision_rew (fill 0%R (agent_collision_rew a))
    (rewarded cfg old a).

(** Everything but the collision accumulator is the same. *)
Definition same_but_collision (a a' : Agent B) : Prop :=
  state a' = state a ∧ sensors a' = sensors a ∧ goal a' = goal a
  ∧ pos_rew a' = pos_rew a ∧ pos_shaping a' = pos_shaping a
  ∧ distance_to_goal a' = distance_to_goal a ∧ on_goal a' = on_goal a.

(** The value [reward] returns for an agent, read off the scenario. *)
Definition reward_value (s : Scenario B) (a : Agent B) : vec R B :=
  vzip_with Rplus
    (vzip_with Rplus
       (if shared_rew (config s) then self_pos_rew s else pos_rew a)
       (self_final_rew s))
    (agent_collision_rew a).

End Vocabulary.

(** ** Collision penalties *)

Section CollisionVocabulary.
Context {B : nat}.
Variable world_collides : Entity B → Entity B → bool.
Variable world_get_distance : Entity B → Entity B → vec R B.
Variables thr pen : R.

(** The penalty a colliding pair earns in environment [e]. *)
Definition pair_penalty (a b : Entity B) (e : fin B) : R :=
  if world_collides a b && Rleb (world_get_distance a b !!! e) thr
  then pen else 0%R.

(** What the visit of the index pair [ij] adds to the agent at index [k]. *)
Definition pair_term (ents : list (Entity B)) (k : nat) (e : fin B)
    (ij : nat * nat) : R :=
  if bool_decide (ij.2 < ij.1 ∧ (k = ij.1 ∨ k = ij.2)) then
    match ents !! ij.1, ents !! ij.2 with
    | Some a, Some b => pair_penalty a b e
    | _, _ => 0%R
    end
  else 0%R.

(** What the agent at index [k] accrues because of the agent at index [m]:
    the pair is visited once, with the larger index first. *)
Definition partner_penalty (ents : list (Entity B)) (k m : nat) (e : fin B)
    : R :=
  match ents !! k, ents !! m with
  | Some ak, Some am =>
      if bool_decide (m < k) then pair_penalty ak am e
      else if bool_decide (k < m) then pair_penalty am ak e
      else 0%R
  | _, _ => 0%R
  end.

End CollisionVocabulary.

(** ** Concrete worlds *)

Section Instances.
Context {B : nat}.

(** The stand-ins used for the simulator core in the worked instances:
    two entities can collide when both have the collide flag, and their
    distance is the distance of the centres minus the two radii. *)
Definition flag_collides (a b : Entity B) : bool := collide a && collide b.

Definition surface_distance (a b : Entity B) : vec R B :=
  vzip_with (λ p q, (vector_norm (v2_sub p q)
                     - shape_radius a - shape_radius b)%R) (pos a) (pos b).

Definition full_range_lidar (l : Lidar) (_ : list (Entity B)) (_ : nat)
    : vec (list R) B :=
  vreplicate B (replicate (Z.to_nat (n_rays l)) (max_range l)).

(** The same placement in every environment. *)
Definition place (ps : list V2) (k : nat) (_ : fin B) : V2 :=
  default (0%R, 0%R) (ps !! k).

(** The integrator puts agent [k] at [ps !! k], at rest. *)
Definition move_to (ps : list V2) (k : nat) : vec V2 B * vec V2 B :=
  (vreplicate B (default (0%R, 0%R) (ps !! k)), zeros2).

End Instances.

(** The default configuration with [n] agents. *)
Definition default_config (n : Z) : BaseNavigationConfig :=
  {| n_agents := n; collisions := true;
     world_spawning_x := 1; world_spawning_y := 1;
     enforce_bounds := false; agents_with_same_goal := 1;
     split_goals := false; observe_all_goals := false;
     lidar_range := (35 / 100)%R; agent_radius := (1 / 10)%R;
     comms_range := 0%R; n_lidar_rays := 12; shared_rew := true;
     pos_shaping_factor := 1%R; final_reward := (1 / 100)%R;
     agent_collision_penalty := (-1)%R |}.

(** One environment, one agent: the call of [make_world] and the world it
    returns. *)
Definition solo_world : result (Scenario 1) :=
  make_world (1 / 20)%R 1 (CfgInstance (default_config 1)) ∅.

Definition solo_made : Scenario 1 :=
  {| config := default_config 1;
     min_distance_between_entities := (1 / 10 * 2 + 5 / 100)%R;
     min_collision_distance := (5 / 1000)%R;
     x_semidim := None; y_semidim := None;
     world_agents := [new_agent (1 / 20)%R 1 (default_config 1)];
     self_pos_rew := [# 0%R];
     self_final_rew := [# 0%R];
     all_goal_reached := None |}.

(** The world after a full reset that puts the agent at (1, 0) and its goal
    at the origin. *)
Definition solo_agent (p : V2) (baseline : R) : Agent 1 :=
  {| state := {| pos := [# p]; vel := [# (0%R, 0%R)];
                 shape_radius := (1 / 10)%R; collide := true |};
     sensors := Some [ {| n_rays := 12; max_range := (35 / 100)%R |} ];
     goal := {| pos := [# (0%R, 0%R)]; vel := [# (0%R, 0%R)];
                shape_radius := (1 / 20)%R; collide := false |};
     pos_rew := [# 0%R];
     agent_collision_rew := [# 0%R];
     pos_shaping := Some [# baseline];
     distance_to_goal := None;
     on_goal := None |}.

Definition solo_scenario (a : Agent 1) : Scenario 1 :=
  {| config := default_config 1;
     min_distance_between_entities := (1 / 10 * 2 + 5 / 100)%R;
     min_collision_distance := (5 / 1000)%R;
     x_semidim := None; y_semidim := None;
     world_agents := [a];
     self_pos_rew := [# 0%R];
     self_final_rew := [# 0%R];
     all_goal_reached := None |}.

Definition solo_start : Scenario 1 :=
  solo_scenario
    (solo_agent (1%R, 0%R)
       (vector_norm (v2_sub (1%R, 0%R) (0%R, 0%R)) * 1)%R).

(** The agent has moved to (3/40, 0): inside its own radius (1/10) of the
    goal, outside the radius of the goal (1/20). *)
Definition solo_near : Scenario 1 :=
  world_step (move_to [((3 / 40)%R, 0%R)]) solo_start.

(** The agent has moved onto its goal. *)
Definition solo_moved : Scenario 1 :=
  world_step (move_to [(0%R, 0%R)]) solo_start.

(** Two environments, two agents. *)
Definition pair_made : Scenario 2 :=
  {| config := default_config 2;
     min_distance_between_entities := (1 / 10 * 2 + 5 / 100)%R;
     min_collision_distance := (5 / 1000)%R;
     x_semidim := None; y_semidim := None;
     world_agents := [new_agent (1 / 20)%R 2 (default_config 2);
                      new_agent (1 / 20)%R 2 (default_config 2)];
     self_pos_rew := [# 0%R; 0%R];
     self_final_rew := [# 0%R; 0%R];
     all_goal_reached := None |}.

Definition pair_agent (p g : V2) : Agent 2 :=
  {| state := {| pos := [# p; p]; vel := [# (0%R, 0%R); (0%R, 0%R)];
                 shape_radius := (1 / 10)%R; collide := true |};
     sensors := Some [ {| n_rays := 12; max_range := (35 / 100)%R |} ];
     goal := {| pos := [# g; g]; vel := [# (0%R, 0%R); (0%R, 0%R)];
                shape_radius := (1 / 20)%R; collide := false |};
     pos_rew := [# 0%R; 0%R];
     agent_collision_rew := [# 0%R; 0%R];
     pos_shaping := Some [# (vector_norm (v2_sub p g) * 1)%R;
                            (vector_norm (v2_sub p g) * 1)%R];
     distance_to_goal := None;
     on_goal := None |}.

Definition pair_start : Scenario 2 :=
  {| config := default_config 2;
     min_distance_between_entities := (1 / 10 * 2 + 5 / 100)%R;
     min_collision_distance := (5 / 1000)%R;
     x_semidim := None; y_semidim := None;
     world_agents := [pair_agent (0%R, 0%R) (2%R, 0%R);
                      pair_agent (1%R, 0%R) (3%R, 0%R)];
     self_pos_rew := [# 0%R; 0%R];
     self_final_rew := [# 0%R; 0%R];
     all_goal_reached := None |}.

(** The integrator has pushed the two agents into each other. *)
Definition pair_close : Scenario 2 :=
  world_step (move_to [(0%R, 0%R); ((3 / 20)%R, 0%R)]) pair_start.

(** * Further parts of the scenario file *)

(** ** [info] *)

Section Info.
Context {B : nat}.

(** [info(agent)]: a dict with three entries.  The entries are the tensors
    of the scenario themselves; the statements below read them at the moment
    of the call. *)
Definition info (s : Scenario B) (i : nat)
    : result (gmap string (vec R B)) :=
  agent ← lookup_agent s i;
  Ok (<["pos_rew" :=
          if shared_rew (config s) then self_pos_rew s else pos_rew agent]>
      (<["final_rew" := self_final_rew s]>
       (<["agent_collisions" := agent_collision_rew agent]> ∅))).

End Info.

(** ** [extra_render] *)

(** A [rendering.Line] of width 1 between two points (its colour is always
    black and its transform the identity). *)
Record Line : Type := {
  line_start : V2;
  line_end : V2;
  line_width : Z;
}.

Section ExtraRender.
Context {B : nat}.

(** Body of the two nested loops for one pair of indices: the pairs with
    [j <= i] are skipped. *)
Definition render_pair (comms : R) (env_index : fin B)
    (agents : list (Agent B)) (geoms : list Line) (ij : nat * nat)
    : list Line :=
  if bool_decide (ij.2 ≤ ij.1) then geoms
  else
    match agents !! ij.1, agents !! ij.2 with
    | Some agent1, Some agent2 =>
        let agent_dist :=
          vzip_with (λ p q, vector_norm (v2_sub p q))
                    (pos (state agent1)) (pos (state agent2)) in
        if Rleb (agent_dist !!! env_index) comms
        then geoms ++ [ {| line_start := pos (state agent1) !!! env_index;
                           line_end := pos (state agent2) !!! env_index;
                           line_width := 1 |} ]
        else geoms
    | _, _ => geoms
    end.

Definition extra_render (s : Scenario B) (env_index : fin B) : list Line :=
  foldl (render_pair (comms_range (config s)) env_index (world_agents s))
        [] (index_pairs (length (world_agents s))).

(** The line the pair [ij] contributes, if any. *)
Definition line_of (comms : R) (env_index : fin B) (agents : list (Agent B))
    (ij : nat * nat) : list Line :=
  render_pair comms env_index agents [] ij.

End ExtraRender.

(** ** [ObstacleScenario.make_world] *)

(** The [config] argument of the obstacle variant: [None], a
    [BaseNavigationConfig] that is not an [ObstacleNavigationConfig], an
    [ObstacleNavigationConfig] (the base fields and [n_obstacles]), or any
    other object. *)
Inductive obstacle_config_arg : Type :=
  | ObsCfgNone
  | ObsCfgBase (c : BaseNavigationConfig)
  | ObsCfgObstacle (c : BaseNavigationConfig) (n_obstacles : Z)
  | ObsCfgNotInstance.

(** An obstacle landmark: [name = f"obstacle {i}"], box shaped, red. *)
Record Obstacle : Type := {
  obstacle_index : nat;
  obstacle_collide : bool;
  obstacle_movable : bool;
}.

(** The landmark built in turn [i] of the loop: [collide=True],
    [movable=False]. *)
Definition obstacle_at (i : nat) : Obstacle :=
  {| obstacle_index := i; obstacle_collide := true;
     obstacle_movable := false |}.

Section ObstacleScenario.
Variable sphere_default_radius : R.

(** Outcome of reading the property [self.world] of the scenario base class,
    which is not part of the scenario file. *)
Variable self_world : result unit.

Definition base_config_arg (arg : obstacle_config_arg) : config_arg :=
  match arg with
  | ObsCfgNone => CfgNone
  | ObsCfgBase c => CfgInstance c
  | ObsCfgObstacle c _ => CfgInstance c
  | ObsCfgNotInstance => CfgNotInstance
  end.

(** [self.config.n_obstacles] on the configuration the base method stored:
    only an [ObstacleNavigationConfig] has the field. *)
Definition config_n_obstacles (arg : obstacle_config_arg) : result Z :=
  match arg with
  | ObsCfgObstacle _ n => Ok n
  | _ => Raise AttributeError
  end.

(** The loop [for i in range(n_obstacles)]: each turn reads [self.world] and
    appends one landmark to it. *)
Fixpoint add_obstacles (idx : list nat) (added : list Obstacle)
    : result (list Obstacle) :=
  match idx with
  | [] => Ok added
  | i :: rest =>
      _ ← self_world;
      add_obstacles rest (added ++ [obstacle_at i])
  end.

(** The method has no [return]: the world the base method built is dropped,
    and what remains is the list of obstacles appended to [self.world]. *)
Definition ObstacleScenario_make_world (batch_dim : nat)
    (arg : obstacle_config_arg) (kwargs : gmap string value)
    : result (list Obstacle) :=
  _ ← make_world sphere_default_radius batch_dim (base_config_arg arg) kwargs;
  n ← config_n_obstacles arg;
  add_obstacles (seq 0 (Z.to_nat n)) [].

End ObstacleScenario.

(** ** [HeuristicPolicy.compute_action]: reading the observation *)

(** The indices [X] and [Y] of the simulator utilities. *)
Definition X : Z := 0.
Definition Y : Z := 1.

(** [row[a:b]] on one row of a batched tensor: slicing never raises. *)
Definition row_slice (a b : nat) (row : list R) : list R :=
  take (b - a) (drop a row).

(** [x - y] on two rows, with torch's broadcasting of a dimension of size
    one; sizes that cannot be broadcast are a runtime error. *)
Definition broadcast_sub (x y : list R) : result (list R) :=
  if bool_decide (length x = length y) then Ok (zip_with Rminus x y)
  else match x, y with
       | [a], _ => Ok ((λ b, (a - b)%R) <$> y)
       | _, [b] => Ok ((λ a, (a - b)%R) <$> x)
       | _, _ => Raise RuntimeError
       end.

(** The part of [compute_action] before the solver, on one row of the
    observation: the slices, the goal position, and the three quantities
    [V_value], [LfV_val] and [LgV_vals]. *)
Definition clf_inputs (row : list R) : result (R * R * V2) :=
  let agent_pos := row_slice 0 2 row in
  let agent_vel := row_slice 2 4 row in
  delta ← broadcast_sub (row_slice 4 6 row) agent_pos;
  let goal := (λ d, (-1 * d)%R) <$> delta in
  px ← py_getitem agent_pos X;
  gx ← py_getitem goal X;
  vx ← py_getitem agent_vel X;
  py ← py_getitem agent_pos Y;
  gy ← py_getitem goal Y;
  vy ← py_getitem agent_vel Y;
  Ok ((px - gx) * (px - gx) + (5 / 10) * (px - gx) * vx + vx * vx
      + (py - gy) * (py - gy) + (5 / 10) * (py - gy) * vy + vy * vy,
      (2 * (px - gx) + vx) * vx + (2 * (py - gy) + vy) * vy,
      ((5 / 10) * (px - gx) + 2 * vx, (5 / 10) * (py - gy) + 2 * vy))%R.

(** A point of the program no feasible point improves on. *)
Definition qp_minimiser (pol : HeuristicPolicy) (u_range : R)
    (o : ObservationRow) (u : V2) (slack : R) : Prop :=
  qp_constraints pol u_range o u slack
  ∧ ∀ u' slack', qp_constraints pol u_range o u' slack' →
      (qp_objective pol u slack <= qp_objective pol u' slack')%R.

(** The six channels the controller reads, when agent [i] is steered towards
    the goal of agent [t] in environment [e]. *)
Definition channels_of {B : nat} (s : Scenario B) (i t : nat) (e : fin B)
    : option ObservationRow :=
  agent ← world_agents s !! i;
  target ← world_agents s !! t;
  Some {| obs_pos := pos (state agent) !!! e;
          obs_vel := vel (state agent) !!! e;
          obs_goal_delta := v2_sub (pos (state agent) !!! e)
                                   (pos (goal target) !!! e) |}.

(** ** Quantities used in the further statements *)

(** The progress reward one call of [agent_reward] gives an agent in
    environment [e]: the baseline it holds minus its shaped distance. *)
Definition progress_of {B : nat} (cfg : BaseNavigationConfig) (a : Agent B)
    (e : fin B) : R :=
  match pos_shaping a with
  | Some old => (old !!! e - goal_distance a !!! e * pos_shaping_factor cfg)%R
  | None => 0%R
  end.

Section CollisionCount.
Context {B : nat}.
Variable world_collides : Entity B → Entity B → bool.
Variable world_get_distance : Entity B → Entity B → vec R B.

(** Are the agents at the indices [k] and [m] in collision in environment
    [e]: the test of the nested loops of [reward], which asks the world with
    the larger index first. *)
Definition in_collision (thr : R) (ents : list (Entity B)) (k m : nat)
    (e : fin B) : bool :=
  match ents !! k, ents !! m with
  | Some ak, Some am =>
      if bool_decide (m < k)
      then world_collides ak am && Rleb (world_get_distance ak am !!! e) thr
      else if bool_decide (k < m)
           then world_collides am ak
                && Rleb (world_get_distance am ak !!! e) thr
           else false
  | _, _ => false
  end.

End CollisionCount.

(** ** Further concrete worlds *)

(** Two agents that share one goal, without collisions. *)
Definition team_config : BaseNavigationConfig :=
  {| n_agents := 2; collisions := false;
     world_spawning_x := 1; world_spawning_y := 1;
     enforce_bounds := false; agents_with_same_goal := 2;
     split_goals := false; observe_all_goals := true;
     lidar_range := (35 / 100)%R; agent_radius := (1 / 10)%R;
     comms_range := 0%R; n_lidar_rays := 12; shared_rew := true;
     pos_shaping_factor := 1%R; final_reward := (1 / 100)%R;
     agent_collision_penalty := (-1)%R |}.

Definition team_made : Scenario 2 :=
  {| config := team_config;
     min_distance_between_entities := (1 / 10 * 2 + 5 / 100)%R;
     min_collision_distance := (5 / 1000)%R;
     x_semidim := None; y_semidim := None;
     world_agents := [new_agent (1 / 20)%R 2 team_config;
                      new_agent (1 / 20)%R 2 team_config];
     self_pos_rew := [# 0%R; 0%R];
     self_final_rew := [# 0%R; 0%R];
     all_goal_reached := None |}.



(** The integrator has put the two agents on the same point. *)
Definition pair_meet : Scenario 2 :=
  world_step (move_to [(1%R, 0%R); (1%R, 0%R)]) pair_start.

(** The controller with its default parameters, and an agent at rest on its
    goal at the origin. *)
Definition default_policy : HeuristicPolicy :=
  {| clf_epsilon := (2 / 10)%R; clf_slack := 100%R |}.

Definition row_at_rest : ObservationRow :=
  {| obs_pos := (0%R, 0%R); obs_vel := (0%R, 0%R);
     obs_goal_delta := (0%R, 0%R) |}.

(** * Properties *)

(** ** Generic facts about the result monad and tensors *)

Lemma bind_Ok {A C} (f : A → result C) (m : result A) (c : C) :
  m ≫= f = Ok c ↔ ∃ a, m = Ok a ∧ f a = Ok c.
Proof.
  destruct m as [a|e]; simpl.
  - split; [eauto | intros (a' & [= <-] & H); exact H].
  - split; [discriminate | intros (a' & [=] & _)].
Qed.

Lemma py_assert_Ok b : py_assert b = Ok tt ↔ b = true.
Proof. destruct b; simpl; split; congruence. Qed.

Lemma getattr_Ok {A} (o : option A) (a : A) : getattr o = Ok a ↔ o = Some a.
Proof. destruct o; simpl; split; congruence. Qed.

Lemma Rltb_true x y : Rltb x y = true ↔ (x < y)%R.
Proof. unfold Rltb. apply bool_decide_eq_true. Qed.

Lemma Rleb_true x y : Rleb x y = true ↔ (x <= y)%R.
Proof. unfold Rleb. apply bool_decide_eq_true. Qed.

Lemma py_getitem_nat {A} (l : list A) (k : nat) (a : A) :
  l !! k = Some a → py_getitem l (Z.of_nat k) = Ok a.
Proof.
  intros H. unfold py_getitem.
  pose proof (lookup_lt_Some _ _ _ H) as Hlt.
  destruct (Z.of_nat k <? 0)%Z eqn:E; [lia|].
  replace ((0 <=? Z.of_nat k)%Z && (Z.of_nat k <? Z.of_nat (length l))%Z)
    with true by (symmetry; apply andb_true_intro; split; lia).
  rewrite Nat2Z.id, H. reflexivity.
Qed.

(** ** Configuration errors are raised by [make_world] *)

Lemma check_config_Ok c : check_config c = Ok tt ↔ ¬ grouping_invalid c.
Proof.
  unfold check_config, grouping_invalid.
  destruct (1 <=? agents_with_same_goal c)%Z eqn:E1;
    destruct (agents_with_same_goal c <=? n_agents c)%Z eqn:E2;
    destruct (1 <? agents_with_same_goal c)%Z eqn:E3;
    destruct (collisions c) eqn:E4;
    destruct (split_goals c) eqn:E5;
    destruct (n_agents c `mod` 2 =? 0)%Z eqn:E6;
    destruct (agents_with_same_goal c =? n_agents c `div` 2)%Z eqn:E7;
    simpl; (split; [intros H; try discriminate H; intros [?|[[? ?]|[? [?|?]]]]
                   | intros H; try reflexivity; exfalso; apply H]);
    try lia; try congruence;
    first [ left; lia | right; left; split; [lia | reflexivity]
          | right; right; split; [reflexivity | left; lia]
          | right; right; split; [reflexivity | right; lia] ].
Qed.

#[global] Instance grouping_invalid_dec c : Decision (grouping_invalid c).
Proof. unfold grouping_invalid. apply _. Defined.

Lemma check_config_Raise c e : check_config c = Raise e → grouping_invalid c.
Proof.
  intros H. destruct (decide (grouping_invalid c)) as [|Hn]; [done|].
  apply check_config_Ok in Hn. congruence.
Qed.

Lemma check_config_unit c u : check_config c = Ok u ↔ ¬ grouping_invalid c.
Proof. destruct u. apply check_config_Ok. Qed.

Section KwargsLookup.
Variable kw : gmap string value.
Hypothesis Hwt : well_typed_kwargs kw.




End KwargsLookup.




Lemma BaseNavigationConfig_init_extra kw :
  ¬ dom kw ⊆ field_names → BaseNavigationConfig_init kw = Raise ValidationError.
Proof.
  intros H. unfold BaseNavigationConfig_init.
  by rewrite bool_decide_eq_false_2.
Qed.

Lemma make_world_config_in_force r0 B arg kw :
  make_world r0 B arg kw =
  (cfg ← config_in_force arg kw; _ ← check_config cfg;
   Ok {| config := cfg;
         min_distance_between_entities := (agent_radius cfg * 2 + 5 / 100)%R;
         min_collision_distance := (5 / 1000)%R;
         x_semidim := if enforce_bounds cfg
                      then Some (world_spawning_x cfg) else None;
         y_semidim := if enforce_bounds cfg
                      then Some (world_spawning_y cfg) else None;
         world_agents := replicate (Z.to_nat (n_agents cfg)) (new_agent r0 B cfg);
         self_pos_rew := zeros;
         self_final_rew := zeros;
         all_goal_reached := None |}).
Proof. destruct arg; reflexivity. Qed.








(** ** Facts about [reset_world_at] *)

Section ResetFacts.
Context {B : nat}.
Variable spawn : nat → fin B → V2.
Variable draw : nat → fin B → V2.

Lemma set_pos_lookup (p : fin B → V2) env_index (ent : Entity B) e :
  pos (set_pos p env_index ent) !!! e =
  match env_index with
  | None => p e
  | Some e0 => if decide (e0 = e) then p e else pos ent !!! e
  end.
Proof.
  destruct env_index as [e0|]; simpl.
  - destruct (decide (e0 = e)) as [->|Hne].
    + apply vlookup_insert.
    + by apply vlookup_insert_ne.
  - apply lookup_fun_to_vec.
Qed.

Lemma set_pos_in_scope (p : fin B → V2) env_index (ent : Entity B) e :
  in_scope env_index e → pos (set_pos p env_index ent) !!! e = p e.
Proof.
  intros H. rewrite set_pos_lookup. destruct env_index as [e0|]; [|done].
  simpl in H. by rewrite decide_True.
Qed.

Lemma set_pos_frame (p : fin B → V2) e0 (ent : Entity B) e :
  e0 ≠ e → pos (set_pos p (Some e0) ent) !!! e = pos ent !!! e.
Proof. intros H. rewrite set_pos_lookup. by rewrite decide_False. Qed.

Lemma goal_index_valid cfg i :
  ¬ grouping_invalid cfg → (Z.of_nat i < n_agents cfg)%Z →
  goal_index cfg i = Ok (goal_index_of cfg i)
  ∧ (0 ≤ goal_index_of cfg i < n_agents cfg)%Z.
Proof.
  intros Hv Hi. unfold goal_index, goal_index_of, py_floordiv.
  assert (H1 : (1 ≤ agents_with_same_goal cfg ≤ n_agents cfg)%Z).
  { destruct (decide (1 ≤ agents_with_same_goal cfg ≤ n_agents cfg)%Z);
      [done|]. exfalso. apply Hv. by left. }
  destruct (split_goals cfg) eqn:Es.
  - assert (H2 : (n_agents cfg `mod` 2 = 0)%Z
                 ∧ agents_with_same_goal cfg = (n_agents cfg `div` 2)%Z).
    { split.
      - destruct (decide (n_agents cfg `mod` 2 = 0)%Z); [done|].
        exfalso. apply Hv. right. right. split; [done|]. by left.
      - destruct (decide (agents_with_same_goal cfg
                          = (n_agents cfg `div` 2)%Z)); [done|].
        exfalso. apply Hv. right. right. split; [done|]. by right. }
    destruct H2 as [Hm Hd].
    destruct (agents_with_same_goal cfg =? 0)%Z eqn:E0; [lia|].
    split; [done|].
    pose proof (Z.div_mod (n_agents cfg) 2 ltac:(lia)) as Hdm.
    split.
    + apply Z.div_pos; lia.
    + apply Z.lt_le_trans with 2%Z; [|lia].
      apply Z.div_lt_upper_bound; lia.
  - split; [done|]. destruct (Z.of_nat i <? agents_with_same_goal cfg)%Z; lia.
Qed.

(** What one iteration of the last loop does to an agent. *)
Lemma reset_agent_Ok cfg env_index gps i (a a' : Agent B) :
  reset_agent cfg env_index gps i a = Ok a' →
  ∃ gi gp,
    goal_index cfg i = Ok gi ∧ py_getitem gps gi = Ok gp
    ∧ state a' = state a
    ∧ sensors a' = sensors a
    ∧ goal a' = set_pos gp env_index (goal a)
    ∧ match env_index with
      | None =>
          pos_shaping a' =
          Some (vmap (λ d, (d * pos_shaping_factor cfg)%R) (goal_distance a'))
      | Some e =>
          ∃ old, pos_shaping a = Some old
            ∧ pos_shaping a' =
              Some (vinsert e (goal_distance a' !!! e
                               * pos_shaping_factor cfg)%R old)
      end.
Proof.
  unfold reset_agent. intros H.
  apply bind_Ok in H as (gi & Hgi & H).
  apply bind_Ok in H as (gp & Hgp & H).
  exists gi, gp. split; [done|]. split; [done|].
  destruct env_index as [e|].
  - apply bind_Ok in H as (old & Hold & H).
    injection H as <-. simpl.
    repeat split; try done.
    exists old. split.
    + simpl in Hold. by apply getattr_Ok.
    + unfold goal_distance. simpl. by rewrite vlookup_zip_with.
  - injection H as <-. done.
Qed.

Lemma reset_agent_succeeds cfg env_index gps i (a : Agent B) :
  ¬ grouping_invalid cfg → (Z.of_nat i < n_agents cfg)%Z →
  length gps = Z.to_nat (n_agents cfg) →
  (env_index = None ∨ is_Some (pos_shaping a)) →
  ∃ a', reset_agent cfg env_index gps i a = Ok a'.
Proof.
  intros Hv Hi Hlen Hps. unfold reset_agent.
  destruct (goal_index_valid cfg i Hv Hi) as [-> Hr].
  cbn [mbind result_bind].
  destruct (lookup_lt_is_Some_2 gps (Z.to_nat (goal_index_of cfg i))
              ltac:(lia)) as [gp Hgp].
  apply py_getitem_nat in Hgp. rewrite Z2Nat.id in Hgp by lia.
  rewrite Hgp. cbn [mbind result_bind].
  destruct env_index as [e|]; [|eauto].
  destruct Hps as [?|[old Hold]]; [done|].
  simpl. rewrite Hold. simpl. eauto.
Qed.

Lemma reset_loop_lookup cfg env_index gps k (agents agents' : list (Agent B)) :
  reset_loop cfg env_index gps k agents = Ok agents' →
  length agents' = length agents
  ∧ ∀ j a, agents !! j = Some a →
      ∃ a', agents' !! j = Some a'
            ∧ reset_agent cfg env_index gps (k + j) a = Ok a'.
Proof.
  revert k agents'. induction agents as [|a0 rest IH]; intros k agents' H.
  - injection H as <-. split; [done|]. intros j a Hj. done.
  - simpl in H. apply bind_Ok in H as (a0' & Ha0 & H).
    apply bind_Ok in H as (rest' & Hrest & H). injection H as <-.
    destruct (IH _ _ Hrest) as [Hlen Hl]. split; [simpl; lia|].
    intros [|j] a Hj; simpl in Hj.
    + injection Hj as <-. exists a0'. by rewrite Nat.add_0_r.
    + destruct (Hl j a Hj) as (a' & Ha' & Hr). exists a'. split; [done|].
      by replace (k + S j) with (S k + j) by lia.
Qed.

Lemma reset_loop_succeeds cfg env_index gps k (agents : list (Agent B)) :
  (∀ j a, agents !! j = Some a →
     ∃ a', reset_agent cfg env_index gps (k + j) a = Ok a') →
  ∃ agents', reset_loop cfg env_index gps k agents = Ok agents'.
Proof.
  revert k. induction agents as [|a0 rest IH]; intros k H; [by eexists|].
  simpl. destruct (H 0 a0 eq_refl) as [a0' Ha0].
  rewrite Nat.add_0_r in Ha0. rewrite Ha0. cbn [mbind result_bind].
  destruct (IH (S k)) as [rest' Hrest].
  { intros j a Hj. destruct (H (S j) a Hj) as [a' Ha']. exists a'.
    by replace (S k + j) with (k + S j) by lia. }
  rewrite Hrest. by eexists.
Qed.

(** A reset succeeds on a valid configuration (a reset of one environment
    needs the shaping baseline of a previous full reset). *)
Lemma reset_world_at_succeeds env_index (s : Scenario B) :
  ¬ grouping_invalid (config s) → agents_match_config s →
  (env_index = None
   ∨ ∀ a, a ∈ world_agents s → is_Some (pos_shaping a)) →
  ∃ s', reset_world_at spawn draw env_index s = Ok s'.
Proof.
  intros Hv Hn Hps. unfold reset_world_at.
  destruct (reset_loop_succeeds (config s) env_index
              (draw <$> seq 0 (length (spawn_agents spawn env_index
                                         (world_agents s))))
              0 (spawn_agents spawn env_index (world_agents s)))
    as [agents' Hag].
  { intros j a Hj. unfold spawn_agents in *.
    rewrite list_lookup_imap in Hj.
    destruct (world_agents s !! j) as [a0|] eqn:Ej; [|done].
    injection Hj as <-.
    pose proof (lookup_lt_Some _ _ _ Ej) as Hlt.
    apply reset_agent_succeeds; [done| | |].
    - red in Hn. simpl. lia.
    - rewrite length_fmap, length_seq, length_imap. exact Hn.
    - destruct Hps as [?|Hps]; [by left|right]. simpl.
      apply Hps. apply list_elem_of_lookup. eauto. }
  rewrite Hag. by eexists.
Qed.

(** The effect of a reset on the agent at index [i]. *)
Lemma reset_world_at_lookup env_index (s s' : Scenario B) i a :
  reset_world_at spawn draw env_index s = Ok s' →
  world_agents s !! i = Some a →
  ∃ a', world_agents s' !! i = Some a'
    ∧ reset_agent (config s) env_index
        (draw <$> seq 0 (length (world_agents s))) i
        (with_state (set_pos (spawn i) env_index (state a)) a) = Ok a'.
Proof.
  unfold reset_world_at. intros H Hi.
  apply bind_Ok in H as (agents' & Hag & H). injection H as <-. simpl.
  apply reset_loop_lookup in Hag as [_ Hl].
  unfold spawn_agents in Hl. rewrite length_imap in Hl.
  apply (Hl i). by rewrite list_lookup_imap, Hi.
Qed.

Lemma reset_world_at_config env_index (s s' : Scenario B) :
  reset_world_at spawn draw env_index s = Ok s' →
  config s' = config s ∧ length (world_agents s') = length (world_agents s).
Proof.
  unfold reset_world_at. intros H.
  apply bind_Ok in H as (agents' & Hag & H). injection H as <-. simpl.
  apply reset_loop_lookup in Hag as [Hlen _].
  unfold spawn_agents in Hlen. by rewrite length_imap in Hlen.
Qed.

End ResetFacts.

Section ResetClaims.
Context {B : nat}.
Variable spawn : nat → fin B → V2.
Variable draw : nat → fin B → V2.

Lemma goal_poses_lookup n (k : Z) :
  (0 ≤ k < Z.of_nat n)%Z →
  py_getitem (draw <$> seq 0 n) k = Ok (draw (Z.to_nat k)).
Proof.
  intros Hk. rewrite <- (Z2Nat.id k) at 1 by lia.
  apply py_getitem_nat. rewrite list_lookup_fmap, lookup_seq_lt by lia.
  reflexivity.
Qed.

(** Closed form of a reset on the agent at index [i]. *)
Lemma reset_closed_form env_index (s s' : Scenario B) i a :
  ¬ grouping_invalid (config s) → agents_match_config s →
  reset_world_at spawn draw env_index s = Ok s' →
  world_agents s !! i = Some a →
  ∃ a', world_agents s' !! i = Some a'
    ∧ state a' = set_pos (spawn i) env_index (state a)
    ∧ sensors a' = sensors a
    ∧ goal a' = set_pos (draw (Z.to_nat (goal_index_of (config s) i)))
                  env_index (goal a)
    ∧ match env_index with
      | None =>
          pos_shaping a' =
          Some (vmap (λ d, (d * pos_shaping_factor (config s))%R)
                     (goal_distance a'))
      | Some e =>
          ∃ old, pos_shaping a = Some old
            ∧ pos_shaping a' =
              Some (vinsert e (goal_distance a' !!! e
                               * pos_shaping_factor (config s))%R old)
      end.
Proof.
  intros Hv Hn Hr Hi.
  destruct (reset_world_at_lookup spawn draw _ _ _ _ _ Hr Hi) as (a' & Ha' & Hra).
  exists a'. split; [done|].
  apply reset_agent_Ok in Hra
    as (gi & gp & Hgi & Hgp & Hst & Hse & Hgo & Hps).
  pose proof (lookup_lt_Some _ _ _ Hi) as Hlt. red in Hn.
  destruct (goal_index_valid (config s) i Hv ltac:(lia)) as [Hgi' Hrange].
  rewrite Hgi' in Hgi. injection Hgi as <-.
  rewrite goal_poses_lookup in Hgp by lia. injection Hgp as <-.
  simpl in *. done.
Qed.

(** C4. On a valid configuration a reset succeeds and gives the goal of the
    agent at index [i] the position [goal_poses[i // agents_with_same_goal]]
    when [split_goals] is set, and otherwise [goal_poses[0]] when
    [i < agents_with_same_goal] and [goal_poses[i]] when not.  With four
    agents split in groups of two the goal indices are 0, 0, 1, 1; with
    [agents_with_same_goal = n_agents] and no split every index is 0. *)
Theorem reset_goal_assignment env_index (s : Scenario B) :
  ¬ grouping_invalid (config s) → agents_match_config s →
  (env_index = None ∨ ∀ a, a ∈ world_agents s → is_Some (pos_shaping a)) →
  let cfg := config s in
  let goal_poses := draw <$> seq 0 (length (world_agents s)) in
  (∃ s', reset_world_at spawn draw env_index s = Ok s'
     ∧ ∀ i, i < length (world_agents s) →
         ∃ a' gp, world_agents s' !! i = Some a'
           ∧ (∀ e, in_scope env_index e → pos (goal a') !!! e = gp e)
           ∧ (split_goals cfg = true →
              py_getitem goal_poses
                (Z.of_nat i `div` agents_with_same_goal cfg) = Ok gp)
           ∧ (split_goals cfg = false →
              (Z.of_nat i < agents_with_same_goal cfg)%Z →
              py_getitem goal_poses 0 = Ok gp)
           ∧ (split_goals cfg = false →
              (agents_with_same_goal cfg ≤ Z.of_nat i)%Z →
              py_getitem goal_poses (Z.of_nat i) = Ok gp))
  ∧ (n_agents cfg = 4%Z → split_goals cfg = true →
     agents_with_same_goal cfg = 2%Z →
     goal_index cfg <$> [0; 1; 2; 3] = [Ok 0; Ok 0; Ok 1; Ok 1]%Z)
  ∧ (split_goals cfg = false → agents_with_same_goal cfg = n_agents cfg →
     ∀ i, (Z.of_nat i < n_agents cfg)%Z → goal_index cfg i = Ok 0%Z).
Proof.
  intros Hv Hn Hps cfg goal_poses. subst cfg goal_poses.
  split; [|split].
  - destruct (reset_world_at_succeeds spawn draw env_index s Hv Hn Hps)
      as [s' Hs'].
    exists s'. split; [done|]. intros i Hi.
    destruct (lookup_lt_is_Some_2 _ _ Hi) as [a Ha].
    destruct (reset_closed_form _ _ _ _ _ Hv Hn Hs' Ha)
      as (a' & Ha' & _ & _ & Hgo & _).
    assert (Hiz : (Z.of_nat i < n_agents (config s))%Z) by (red in Hn; lia).
    destruct (goal_index_valid (config s) i Hv Hiz) as [_ Hrange].
    red in Hn.
    exists a', (draw (Z.to_nat (goal_index_of (config s) i))).
    split; [done|]. split.
    { intros e He. rewrite Hgo. by apply set_pos_in_scope. }
    unfold goal_index_of in *.
    split; [|split].
    + intros Hs. rewrite Hs in *. apply goal_poses_lookup. lia.
    + intros Hs Hlt. rewrite Hs in *.
      apply Z.ltb_lt in Hlt. rewrite Hlt in *. apply goal_poses_lookup. lia.
    + intros Hs Hge. rewrite Hs in *.
      apply Z.ltb_ge in Hge. rewrite Hge in *. apply goal_poses_lookup. lia.
  - intros H4 Hs H2. unfold goal_index, py_floordiv. rewrite Hs, H2.
    reflexivity.
  - intros Hs Heq i Hi. unfold goal_index. rewrite Hs, Heq.
    apply Z.ltb_lt in Hi. by rewrite Hi.
Qed.

(** C10. A reset of the single environment [e] succeeds (once a full reset
    has created the shaping baselines) and, for every agent, leaves the
    goal position and the shaping baseline of every other environment as
    they were; what it writes at [e] is a function of the placement at [e]
    and of the configuration alone, so a second world with the same
    configuration and number of agents gets the same values at [e]. *)
Theorem reset_world_at_env_frame (e : fin B) (s1 s2 : Scenario B) :
  ¬ grouping_invalid (config s1) → agents_match_config s1 →
  (∀ a, a ∈ world_agents s1 → is_Some (pos_shaping a)) →
  config s2 = config s1 → agents_match_config s2 →
  (∀ a, a ∈ world_agents s2 → is_Some (pos_shaping a)) →
  ∃ s1' s2',
    reset_world_at spawn draw (Some e) s1 = Ok s1'
    ∧ reset_world_at spawn draw (Some e) s2 = Ok s2'
    ∧ ∀ i a1, world_agents s1 !! i = Some a1 →
        ∃ a1' a2' old1 new1 new2,
          world_agents s1' !! i = Some a1'
          ∧ world_agents s2' !! i = Some a2'
          ∧ pos_shaping a1 = Some old1
          ∧ pos_shaping a1' = Some new1
          ∧ pos_shaping a2' = Some new2
          ∧ (∀ e', e' ≠ e →
               pos (goal a1') !!! e' = pos (goal a1) !!! e'
               ∧ new1 !!! e' = old1 !!! e')
          ∧ pos (goal a1') !!! e = pos (goal a2') !!! e
          ∧ new1 !!! e = new2 !!! e.
Proof.
  intros Hv1 Hn1 Hp1 Hc Hn2 Hp2.
  assert (Hv2 : ¬ grouping_invalid (config s2)) by by rewrite Hc.
  destruct (reset_world_at_succeeds spawn draw (Some e) s1 Hv1 Hn1
              ltac:(by right)) as [s1' Hs1'].
  destruct (reset_world_at_succeeds spawn draw (Some e) s2 Hv2 Hn2
              ltac:(by right)) as [s2' Hs2'].
  exists s1', s2'. split; [done|]. split; [done|].
  intros i a1 Ha1.
  assert (Hlen : length (world_agents s2) = length (world_agents s1)).
  { red in Hn1, Hn2. by rewrite Hn1, Hn2, Hc. }
  destruct (lookup_lt_is_Some_2 (world_agents s2) i) as [a2 Ha2].
  { rewrite Hlen. by eapply lookup_lt_Some. }
  destruct (reset_closed_form _ _ _ _ _ Hv1 Hn1 Hs1' Ha1)
    as (a1' & Ha1' & Hst1 & _ & Hgo1 & old1 & Hold1 & Hnew1).
  destruct (reset_closed_form _ _ _ _ _ Hv2 Hn2 Hs2' Ha2)
    as (a2' & Ha2' & Hst2 & _ & Hgo2 & old2 & Hold2 & Hnew2).
  eexists a1', a2', old1, _, _.
  repeat (split; [done|]).
  split; [|split].
  - intros e' Hne. split.
    + rewrite Hgo1. by apply set_pos_frame.
    + by apply vlookup_insert_ne.
  - rewrite Hgo1, Hgo2, Hc. by rewrite !set_pos_in_scope.
  - rewrite !vlookup_insert. unfold goal_distance.
    rewrite !vlookup_zip_with, Hst1, Hst2, Hgo1, Hgo2, Hc.
    by rewrite !set_pos_in_scope.
Qed.

End ResetClaims.

(** ** Facts about the reward engine *)

Lemma sum_R_cons x l : sum_R (x :: l) = (x + sum_R l)%R.
Proof. reflexivity. Qed.

Lemma sum_R_app l1 l2 : sum_R (l1 ++ l2) = (sum_R l1 + sum_R l2)%R.
Proof.
  unfold sum_R. induction l1 as [|x l1 IH]; simpl; [lra|]. rewrite IH. lra.
Qed.

Lemma sum_R_ext {A} (f g : A → R) (l : list A) :
  (∀ x, x ∈ l → f x = g x) → sum_R (f <$> l) = sum_R (g <$> l).
Proof.
  induction l as [|x l IH]; intros H; [done|].
  csimpl. unfold sum_R in *. simpl.
  rewrite IH, (H x) by (intros; try apply H; set_solver). done.
Qed.

Lemma sum_R_plus {A} (f g : A → R) (l : list A) :
  sum_R ((λ x, f x + g x)%R <$> l) = (sum_R (f <$> l) + sum_R (g <$> l))%R.
Proof.
  unfold sum_R. induction l as [|x l IH]; csimpl; [lra|].
  rewrite IH. lra.
Qed.

Lemma sum_R_zero {A} (l : list A) : sum_R ((λ _ : A, 0%R) <$> l) = 0%R.
Proof. unfold sum_R. induction l as [|x l IH]; csimpl; [done|]. rewrite IH. lra. Qed.

(** A sum with a single index that can contribute. *)
Lemma sum_R_single (f : nat → R) (k j n : nat) :
  sum_R ((λ i, if bool_decide (i = k) then f i else 0%R) <$> seq j n)
  = if bool_decide (j ≤ k < j + n) then f k else 0%R.
Proof.
  revert j. induction n as [|n IH]; intros j.
  - simpl. rewrite bool_decide_eq_false_2 by lia. done.
  - rewrite <- cons_seq. csimpl. unfold sum_R in *. simpl. rewrite IH.
    repeat case_bool_decide; subst; try lia; lra.
Qed.

Lemma sum_R_bind (f : nat * nat → R) (g : nat → list (nat * nat))
    (l : list nat) :
  sum_R (f <$> (l ≫= g)) = sum_R ((λ i, sum_R (f <$> g i)) <$> l).
Proof.
  induction l as [|x l IH]; [done|].
  rewrite bind_cons, fmap_app, sum_R_app, IH. done.
Qed.

Section EngineFacts.
Context {B : nat}.
Variable world_collides : Entity B → Entity B → bool.
Variable world_get_distance : Entity B → Entity B → vec R B.

Lemma fill_lookup {A} (c : A) (t : vec A B) e : fill c t !!! e = c.
Proof. unfold fill. by rewrite vlookup_map. Qed.

Lemma masked_add_lookup (mask : vec bool B) c (t : vec R B) (e : fin B) :
  masked_add mask c t !!! e
  = (t !!! e + if (mask !!! e : bool) then c else 0)%R.
Proof.
  unfold masked_add. rewrite vlookup_zip_with.
  destruct (mask !!! e); lra.
Qed.

Lemma masked_set_lookup (mask : vec bool B) c (t : vec R B) (e : fin B) :
  masked_set mask c t !!! e = if (mask !!! e : bool) then c else t !!! e.
Proof. unfold masked_set. by rewrite vlookup_zip_with. Qed.

Lemma foldl_andb_lookup (x : vec bool B) xs (e : fin B) :
  foldl (vzip_with andb) x xs !!! e
  = (x !!! e) && forallb (λ v : vec bool B, v !!! e) xs.
Proof.
  revert x. induction xs as [|y xs IH]; intros x; simpl.
  - by rewrite andb_true_r.
  - rewrite IH, vlookup_zip_with. by rewrite andb_assoc.
Qed.

Lemma stack_all_lookup (l : list (vec bool B)) r (e : fin B) :
  stack_all l = Ok r → r !!! e = forallb (λ v : vec bool B, v !!! e) l.
Proof.
  destruct l as [|x xs]; [done|]. intros [= <-].
  apply foldl_andb_lookup.
Qed.

Lemma agent_reward_Ok cfg (a a' : Agent B) r :
  agent_reward cfg a = Ok (a', r) ↔
  ∃ old, pos_shaping a = Some old ∧ a' = rewarded cfg old a
         ∧ r = pos_rew (rewarded cfg old a).
Proof.
  unfold agent_reward. split.
  - intros H. apply bind_Ok in H as (old & Hold & H).
    apply getattr_Ok in Hold. injection H as <- <-. by exists old.
  - intros (old & Hold & -> & ->). rewrite Hold. reflexivity.
Qed.

Lemma progress_loop_lookup cfg (agents agents' : list (Agent B)) acc acc' :
  progress_loop cfg agents acc = Ok (agents', acc') →
  length agents' = length agents
  ∧ ∀ j a, agents !! j = Some a →
      ∃ old, pos_shaping a = Some old
             ∧ agents' !! j = Some (progressed cfg old a).
Proof.
  revert acc agents' acc'.
  induction agents as [|a0 rest IH]; intros acc agents' acc' H.
  - injection H as <- <-. split; [done|]. intros j a Hj. done.
  - simpl in H. apply bind_Ok in H as ([a1 r] & Ha0 & H).
    apply bind_Ok in H as ([rest' acc1] & Hrest & H).
    injection H as <- <-.
    apply agent_reward_Ok in Ha0 as (old & Hold & -> & ->).
    destruct (IH _ _ _ Hrest) as [Hlen Hl]. split; [simpl; lia|].
    intros [|j] a Hj; simpl in Hj.
    + injection Hj as <-. by exists old.
    + apply (Hl j a Hj).
Qed.

Lemma progress_loop_succeeds cfg (agents : list (Agent B)) acc :
  (∀ a, a ∈ agents → is_Some (pos_shaping a)) →
  ∃ agents' acc', progress_loop cfg agents acc = Ok (agents', acc').
Proof.
  revert acc. induction agents as [|a0 rest IH]; intros acc H.
  - by eexists _, _.
  - destruct (H a0 ltac:(set_solver)) as [old Hold].
    simpl. unfold agent_reward. rewrite Hold. cbn [getattr mbind result_bind].
    edestruct IH as (rest' & acc' & ->); [intros; apply H; set_solver|].
    by eexists _, _.
Qed.

(** The shared progress reward is the sum of the agents' rewards. *)
Lemma progress_loop_acc cfg (agents agents' : list (Agent B)) acc acc'
    (e : fin B) :
  progress_loop cfg agents acc = Ok (agents', acc') →
  acc' !!! e = (acc !!! e + sum_R ((λ a, pos_rew a !!! e) <$> agents'))%R.
Proof.
  revert acc agents' acc'.
  induction agents as [|a0 rest IH]; intros acc agents' acc' H.
  - injection H as <- <-. unfold sum_R. simpl. lra.
  - simpl in H. apply bind_Ok in H as ([a1 r] & Ha0 & H).
    apply bind_Ok in H as ([rest' acc1] & Hrest & H).
    injection H as <- <-.
    apply agent_reward_Ok in Ha0 as (old & Hold & -> & ->).
    rewrite (IH _ _ _ Hrest), vlookup_zip_with.
    csimpl. unfold sum_R. simpl. lra.
Qed.

End EngineFacts.

(** ** The collision pass *)

Section CollisionFacts.
Context {B : nat}.
Variable world_collides : Entity B → Entity B → bool.
Variable world_get_distance : Entity B → Entity B → vec R B.
Variables thr pen : R.

Abbreviation pair_penalty :=
  (pair_penalty world_collides world_get_distance thr pen).
Abbreviation pair_term :=
  (pair_term world_collides world_get_distance thr pen).
Abbreviation partner_penalty :=
  (partner_penalty world_collides world_get_distance thr pen).

Lemma same_but_collision_refl (a : Agent B) : same_but_collision a a.
Proof. by repeat split. Qed.

Lemma same_but_collision_trans (a b c : Agent B) :
  same_but_collision a b → same_but_collision b c → same_but_collision a c.
Proof.
  intros (?&?&?&?&?&?&?) (?&?&?&?&?&?&?). repeat split; congruence.
Qed.

Lemma collision_mask_lookup (a b : Entity B) (e : fin B) :
  world_collides a b = true →
  (if (collision_mask world_get_distance thr a b !!! e : bool)
   then pen else 0%R) = pair_penalty a b e.
Proof.
  intros Hc. unfold collision_mask, pair_penalty.
  by rewrite vlookup_map, Hc.
Qed.

Lemma collision_pair_spec (agents : list (Agent B)) (ij : nat * nat) :
  let agents' :=
    collision_pair world_collides world_get_distance thr pen agents ij in
  length agents' = length agents
  ∧ ∀ k a, agents !! k = Some a →
      ∃ a', agents' !! k = Some a' ∧ same_but_collision a a'
        ∧ ∀ e, agent_collision_rew a' !!! e
               = (agent_collision_rew a !!! e
                  + pair_term (state <$> agents) k e ij)%R.
Proof.
  destruct ij as [i j]. unfold collision_pair, pair_term. simpl.
  rewrite !list_lookup_fmap.
  case_bool_decide as Hij.
  { split; [done|]. intros k a Hk. exists a.
    split; [done|]. split; [apply same_but_collision_refl|].
    intros e. rewrite bool_decide_eq_false_2 by lia. lra. }
  destruct (agents !! i) as [ai|] eqn:Ei; simpl.
  2:{ split; [done|]. intros k a Hk. exists a.
      split; [done|]. split; [apply same_but_collision_refl|].
      intros e. case_bool_decide; lra. }
  destruct (agents !! j) as [aj|] eqn:Ej; simpl.
  2:{ split; [done|]. intros k a Hk. exists a.
      split; [done|]. split; [apply same_but_collision_refl|].
      intros e. case_bool_decide; lra. }
  destruct (world_collides (state ai) (state aj)) eqn:Ec.
  2:{ split; [done|]. intros k a Hk. exists a.
      split; [done|]. split; [apply same_but_collision_refl|].
      intros e. unfold pair_penalty. rewrite Ec. simpl.
      case_bool_decide; lra. }
  split; [by rewrite !length_insert|].
  pose proof (lookup_lt_Some _ _ _ Ei) as Hi.
  pose proof (lookup_lt_Some _ _ _ Ej) as Hj.
  intros k a Hk.
  destruct (decide (k = j)) as [->|Hkj]; [|destruct (decide (k = i)) as [->|Hki]].
  - rewrite list_lookup_insert_eq by (rewrite length_insert; lia).
    eexists. split; [done|]. simplify_eq. split; [by repeat split|].
    intros e. simpl. rewrite masked_add_lookup.
    rewrite bool_decide_eq_true_2 by lia.
    by rewrite collision_mask_lookup.
  - rewrite list_lookup_insert_ne by lia.
    rewrite list_lookup_insert_eq by lia.
    eexists. split; [done|]. simplify_eq. split; [by repeat split|].
    intros e. simpl. rewrite masked_add_lookup.
    rewrite bool_decide_eq_true_2 by lia.
    by rewrite collision_mask_lookup.
  - rewrite !list_lookup_insert_ne by lia.
    exists a. split; [done|]. split; [apply same_but_collision_refl|].
    intros e. rewrite bool_decide_eq_false_2 by lia. lra.
Qed.

Lemma same_states (agents agents' : list (Agent B)) :
  length agents' = length agents →
  (∀ k a, agents !! k = Some a →
     ∃ a', agents' !! k = Some a' ∧ same_but_collision a a') →
  state <$> agents' = state <$> agents.
Proof.
  intros Hlen H. apply list_eq. intros k. rewrite !list_lookup_fmap.
  destruct (agents !! k) as [a|] eqn:Ek.
  - destruct (H k a Ek) as (a' & -> & Hs & _). simpl. by rewrite Hs.
  - apply lookup_ge_None in Ek.
    rewrite (proj2 (lookup_ge_None agents' k)) by lia. done.
Qed.

Lemma collision_fold_spec (pairs : list (nat * nat)) (agents : list (Agent B)) :
  let agents' :=
    foldl (collision_pair world_collides world_get_distance thr pen)
          agents pairs in
  length agents' = length agents
  ∧ ∀ k a, agents !! k = Some a →
      ∃ a', agents' !! k = Some a' ∧ same_but_collision a a'
        ∧ ∀ e, agent_collision_rew a' !!! e
               = (agent_collision_rew a !!! e
                  + sum_R (pair_term (state <$> agents) k e <$> pairs))%R.
Proof.
  revert agents. induction pairs as [|ij pairs IH]; intros agents; cbn [foldl].
  - split; [done|]. intros k a Hk. exists a. split; [done|].
    split; [apply same_but_collision_refl|]. intros e. unfold sum_R. simpl. lra.
  - destruct (collision_pair_spec agents ij) as [Hlen1 H1].
    destruct (IH (collision_pair world_collides world_get_distance
                    thr pen agents ij)) as [Hlen2 H2].
    split; [congruence|]. intros k a Hk.
    destruct (H1 k a Hk) as (a1 & Hk1 & Hs1 & Hc1).
    destruct (H2 k a1 Hk1) as (a2 & Hk2 & Hs2 & Hc2).
    exists a2. split; [done|].
    split; [by eapply same_but_collision_trans|].
    intros e. rewrite Hc2, Hc1.
    rewrite (same_states agents _ Hlen1)
      by (intros k' a' Hk'; destruct (H1 k' a' Hk') as (?&?&?&?); eauto).
    rewrite fmap_cons, sum_R_cons. lra.
Qed.

(** The sum over the visited pairs, regrouped by partner. *)
Lemma pair_term_split ents k e i j :
  pair_term ents k e (i, j)
  = ((if bool_decide (i = k) then pair_term ents k e (k, j) else 0)
     + (if bool_decide (j = k) then pair_term ents k e (i, k) else 0))%R.
Proof.
  unfold pair_term. simpl.
  repeat case_bool_decide; subst; try lia; try lra;
    repeat case_match; lra.
Qed.

Lemma partner_penalty_pair_term ents k m e :
  partner_penalty ents k m e
  = (pair_term ents k e (k, m) + pair_term ents k e (m, k))%R.
Proof.
  unfold partner_penalty, pair_term. simpl.
  destruct (ents !! k) as [ak|]; destruct (ents !! m) as [am|];
    repeat case_bool_decide; try lia; lra.
Qed.

Lemma pair_sum_by_partner ents k e n :
  k < n →
  sum_R (pair_term ents k e <$> index_pairs n)
  = sum_R ((λ m, partner_penalty ents k m e) <$> seq 0 n).
Proof.
  intros Hk. unfold index_pairs.
  rewrite sum_R_bind.
  rewrite (sum_R_ext _
             (λ i, ((if bool_decide (i = k)
                     then sum_R ((λ j, pair_term ents k e (k, j)) <$> seq 0 n)
                     else 0)
                    + (λ i, pair_term ents k e (i, k)) i)%R)).
  2:{ intros i _. rewrite sum_R_bind.
      rewrite (sum_R_ext _
                 (λ j, ((λ j, if bool_decide (i = k)
                              then pair_term ents k e (k, j) else 0) j
                        + (λ j, if bool_decide (j = k)
                                then pair_term ents k e (i, k) else 0) j)%R)).
      2:{ intros j _. unfold sum_R. simpl. rewrite Rplus_0_r.
          apply pair_term_split. }
      rewrite sum_R_plus, (sum_R_single (λ _, pair_term ents k e (i, k))).
      rewrite (bool_decide_eq_true_2 (0 ≤ k < 0 + n)) by lia.
      case_bool_decide; [done|]. by rewrite sum_R_zero. }
  rewrite sum_R_plus.
  rewrite (sum_R_single
             (λ _, sum_R ((λ j, pair_term ents k e (k, j)) <$> seq 0 n))).
  rewrite (bool_decide_eq_true_2 (0 ≤ k < 0 + n)) by lia.
  rewrite <- sum_R_plus. apply sum_R_ext. intros m _.
  by rewrite partner_penalty_pair_term.
Qed.

(** Closed form of the collision pass on agents whose accumulators were
    just cleared. *)
Lemma collision_loop_spec (agents : list (Agent B)) :
  let agents' :=
    collision_loop world_collides world_get_distance thr pen agents in
  length agents' = length agents
  ∧ ∀ k a, agents !! k = Some a →
      ∃ a', agents' !! k = Some a' ∧ same_but_collision a a'
        ∧ ∀ e, agent_collision_rew a' !!! e
               = (agent_collision_rew a !!! e
                  + sum_R ((λ m, partner_penalty (state <$> agents) k m e)
                           <$> seq 0 (length agents)))%R.
Proof.
  unfold collision_loop.
  destruct (collision_fold_spec (index_pairs (length agents)) agents)
    as [Hlen H].
  split; [done|]. intros k a Hk.
  destruct (H k a Hk) as (a' & Hk' & Hs & Hc).
  exists a'. split; [done|]. split; [done|]. intros e.
  rewrite Hc, pair_sum_by_partner by (by eapply lookup_lt_Some). done.
Qed.

(** A pair within the threshold costs both agents the same amount. *)
Lemma partner_penalty_sym ents i j (ai aj : Entity B) e :
  i < j → ents !! i = Some ai → ents !! j = Some aj →
  partner_penalty ents i j e = pair_penalty aj ai e
  ∧ partner_penalty ents j i e = pair_penalty aj ai e.
Proof.
  intros Hij Hi Hj. unfold partner_penalty. rewrite Hi, Hj.
  rewrite (bool_decide_eq_false_2 (j < i)) by lia.
  rewrite !(bool_decide_eq_true_2 (i < j)) by lia. done.
Qed.

Lemma pair_penalty_hit (a b : Entity B) e :
  world_collides a b = true → (world_get_distance a b !!! e <= thr)%R →
  pair_penalty a b e = pen.
Proof.
  intros Hc Hd. unfold pair_penalty. rewrite Hc.
  by rewrite (proj2 (Rleb_true _ _) Hd).
Qed.

End CollisionFacts.

(** ** The recomputation on the first agent and the reward of an agent *)

Section RewardFacts.
Context {B : nat}.
Variable world_collides : Entity B → Entity B → bool.
Variable world_get_distance : Entity B → Entity B → vec R B.

Abbreviation recompute := (recompute world_collides world_get_distance).
Abbreviation reward := (reward world_collides world_get_distance).
Abbreviation partner_penalty :=
  (partner_penalty world_collides world_get_distance).

Lemma on_goal_progressed cfg (agents agents1 : list (Agent B)) :
  length agents1 = length agents →
  (∀ j a, agents !! j = Some a →
     ∃ old, pos_shaping a = Some old
            ∧ agents1 !! j = Some (progressed cfg old a)) →
  mapM_result (λ a, getattr (on_goal a)) agents1
  = Ok ((λ a, vmap (λ d, Rltb d (shape_radius (goal a))) (goal_distance a))
        <$> agents).
Proof.
  revert agents1. induction agents as [|a0 rest IH]; intros agents1 Hlen H.
  - destruct agents1; [done|simpl in Hlen; lia].
  - destruct agents1 as [|b0 rest1]; [simpl in Hlen; lia|].
    destruct (H 0 a0 eq_refl) as (old & _ & Hb0). injection Hb0 as ->.
    cbn [mapM_result]. simpl on_goal. cbn [getattr mbind result_bind].
    rewrite (IH rest1).
    + reflexivity.
    + simpl in Hlen. lia.
    + intros j a Hj. apply (H (S j) a Hj).
Qed.

Lemma forallb_on_goal (agents : list (Agent B)) (e : fin B) :
  forallb (λ v : vec bool B, v !!! e)
    ((λ a, vmap (λ d, Rltb d (shape_radius (goal a))) (goal_distance a))
     <$> agents)
  = forallb (λ a, on_goal_at a e) agents.
Proof.
  induction agents as [|a rest IH]; [done|].
  csimpl. rewrite IH. unfold on_goal_at. by rewrite vlookup_map.
Qed.

Lemma recompute_spec (s s' : Scenario B) :
  recompute s = Ok s' →
  config s' = config s
  ∧ min_collision_distance s' = min_collision_distance s
  ∧ length (world_agents s') = length (world_agents s)
  ∧ world_agents s ≠ []
  ∧ (∀ k a, world_agents s !! k = Some a →
       ∃ old a', pos_shaping a = Some old
         ∧ world_agents s' !! k = Some a'
         ∧ same_but_collision (progressed (config s) old a) a'
         ∧ ∀ e, agent_collision_rew a' !!! e
                = sum_R ((λ m, partner_penalty (min_collision_distance s)
                                 (agent_collision_penalty (config s))
                                 (state <$> world_agents s) k m e)
                         <$> seq 0 (length (world_agents s))))
  ∧ (∀ e, self_final_rew s' !!! e
          = if forallb (λ a, on_goal_at a e) (world_agents s)
            then final_reward (config s) else 0%R)
  ∧ (∀ e, self_pos_rew s' !!! e
          = sum_R ((λ a, pos_rew a !!! e) <$> world_agents s')).
Proof.
  unfold recompute. intros H.
  apply bind_Ok in H as ([agents1 posr] & Hloop & H).
  apply bind_Ok in H as (on & Hon & H).
  apply bind_Ok in H as (reached & Hreached & H).
  injection H as <-. simpl.
  pose proof (λ e, progress_loop_acc _ _ _ _ _ e Hloop) as Hacc.
  apply progress_loop_lookup in Hloop as [Hlen1 Hl1].
  rewrite (on_goal_progressed (config s) (world_agents s)) in Hon by done.
  injection Hon as <-.
  destruct (collision_loop_spec world_collides world_get_distance
              (min_collision_distance s)
              (agent_collision_penalty (config s)) agents1) as [Hlen2 Hl2].
  assert (Hstates : state <$> agents1 = state <$> world_agents s).
  { apply list_eq. intros k. rewrite !list_lookup_fmap.
    destruct (world_agents s !! k) as [a|] eqn:Ek.
    - destruct (Hl1 k a Ek) as (old & _ & ->). done.
    - apply lookup_ge_None in Ek.
      rewrite (proj2 (lookup_ge_None agents1 k)) by lia. done. }
  split; [done|]. split; [done|]. split; [congruence|]. split.
  { intros Hnil. rewrite Hnil in Hreached. discriminate. }
  split; [|split].
  - intros k a Hk. destruct (Hl1 k a Hk) as (old & Hold & Hk1).
    destruct (Hl2 k _ Hk1) as (a' & Hk' & Hs & Hc).
    exists old, a'. repeat (split; [done|]).
    intros e. rewrite Hc. simpl. rewrite fill_lookup, Hstates, Hlen1. lra.
  - intros e. rewrite masked_set_lookup, fill_lookup.
    by rewrite (stack_all_lookup _ _ e Hreached), forallb_on_goal.
  - intros e. rewrite Hacc, fill_lookup, Rplus_0_l.
    f_equal. apply list_eq. intros k. rewrite !list_lookup_fmap.
    destruct (agents1 !! k) as [a1|] eqn:Ek1.
    + destruct (Hl2 k a1 Ek1) as (a' & -> & Hs & _). simpl.
      destruct Hs as (_ & _ & _ & -> & _). done.
    + apply lookup_ge_None in Ek1.
      rewrite (proj2 (lookup_ge_None _ k)) by lia. done.
Qed.

Lemma recompute_succeeds (s : Scenario B) :
  world_agents s ≠ [] → baselines_set s → ∃ s', recompute s = Ok s'.
Proof.
  intros Hne Hps. unfold recompute.
  destruct (progress_loop_succeeds (config s) (world_agents s)
              (fill 0%R (self_pos_rew s)) Hps) as (agents1 & posr & Hloop).
  rewrite Hloop. cbn [mbind result_bind].
  apply progress_loop_lookup in Hloop as [Hlen1 Hl1].
  rewrite (on_goal_progressed (config s) (world_agents s)) by done.
  cbn [mbind result_bind].
  destruct (world_agents s) as [|a0 rest]; [done|].
  csimpl. by eexists.
Qed.

(** The reward of the first agent runs the recomputation. *)
Lemma reward_first (s s' : Scenario B) r :
  reward s 0 = Ok (s', r) ↔
  ∃ a', recompute s = Ok s' ∧ world_agents s' !! 0 = Some a'
    ∧ r = vzip_with Rplus
            (vzip_with Rplus
               (if shared_rew (config s') then self_pos_rew s'
                else pos_rew a')
               (self_final_rew s'))
            (agent_collision_rew a').
Proof.
  unfold reward, lookup_agent. split.
  - intros H. apply bind_Ok in H as (a0 & Ha0 & H).
    apply bind_Ok in H as (a0' & _ & H).
    apply bind_Ok in H as (s1 & Hs1 & H).
    apply bind_Ok in H as (a' & Ha' & H).
    rewrite bool_decide_eq_true_2 in Hs1 by done.
    injection H as <- <-. exists a'. split; [done|]. split; [|done].
    by destruct (world_agents s1 !! 0); simplify_eq.
  - intros (a' & Hr & Ha' & ->).
    destruct (recompute_spec _ _ Hr) as (_ & _ & Hlen & Hne & _).
    destruct (world_agents s) as [|a0 rest] eqn:Es; [done|].
    simpl. rewrite Hr. cbn [mbind result_bind]. rewrite Ha'. reflexivity.
Qed.

(** The reward of any other agent only reads. *)
Lemma reward_other (s : Scenario B) i a :
  i ≠ 0 → world_agents s !! i = Some a →
  reward s i =
  Ok (s, vzip_with Rplus
           (vzip_with Rplus
              (if shared_rew (config s) then self_pos_rew s else pos_rew a)
              (self_final_rew s))
           (agent_collision_rew a)).
Proof.
  intros Hi Ha. unfold reward, lookup_agent. rewrite Ha.
  cbn [mbind result_bind].
  destruct (lookup_lt_is_Some_2 (world_agents s) 0) as [a0 Ha0].
  { apply lookup_lt_Some in Ha. lia. }
  change 0%Z with (Z.of_nat 0). rewrite (py_getitem_nat _ _ _ Ha0).
  cbn [mbind result_bind].
  rewrite bool_decide_eq_false_2 by done.
  cbn [mbind result_bind]. rewrite Ha. reflexivity.
Qed.

End RewardFacts.

(** ** Steps and trajectories *)

Section StepFacts.
Context {B : nat}.
Variable world_collides : Entity B → Entity B → bool.
Variable world_get_distance : Entity B → Entity B → vec R B.

Abbreviation recompute := (recompute world_collides world_get_distance).
Abbreviation reward := (reward world_collides world_get_distance).
Abbreviation rewards_from :=
  (rewards_from world_collides world_get_distance).
Abbreviation env_step := (env_step world_collides world_get_distance).
Abbreviation run := (run world_collides world_get_distance).

Lemma reward_first_succeeds (s : Scenario B) :
  world_agents s ≠ [] → baselines_set s → ∃ s' r, reward s 0 = Ok (s', r).
Proof.
  intros Hne Hps.
  destruct (recompute_succeeds world_collides world_get_distance s Hne Hps)
    as [s' Hs'].
  destruct (recompute_spec _ _ _ _ Hs') as (_ & _ & Hlen & _).
  destruct (lookup_lt_is_Some_2 (world_agents s') 0) as [a' Ha'].
  { rewrite Hlen. destruct (world_agents s); [done|simpl; lia]. }
  eexists s', _. apply reward_first. exists a'. done.
Qed.

(** Asking the agents other than the first leaves the scenario as it is. *)
Lemma rewards_from_others (s : Scenario B) (idx : list nat) :
  (∀ i, i ∈ idx → i ≠ 0 ∧ i < length (world_agents s)) →
  ∃ rs, rewards_from s idx = Ok (s, rs).
Proof.
  induction idx as [|i idx IH]; intros H; [by eexists|].
  destruct (H i) as [Hi Hlt]; [apply list_elem_of_here|].
  destruct (lookup_lt_is_Some_2 _ _ Hlt) as [a Ha].
  simpl. rewrite (reward_other _ _ s i a Hi Ha). cbn [mbind result_bind].
  destruct IH as [rs ->]; [|by eexists].
  intros j Hj. apply H. by apply list_elem_of_further.
Qed.

Lemma rewards_from_seq (s s' : Scenario B) rs :
  world_agents s ≠ [] →
  rewards_from s (seq 0 (length (world_agents s))) = Ok (s', rs) →
  recompute s = Ok s'.
Proof.
  intros Hne H. destruct (world_agents s) as [|a0 rest] eqn:Es; [done|].
  cbn [length seq rewards_from] in H.
  apply bind_Ok in H as ([s1 r] & Hr & H).
  apply reward_first in Hr as (a' & Hrec & _).
  destruct (recompute_spec _ _ _ _ Hrec) as (_ & _ & Hlen & _).
  destruct (rewards_from_others s1 (seq 1 (length rest))) as [rs' Hrs'].
  { intros i Hi. apply elem_of_seq in Hi. rewrite Hlen, Es. simpl. lia. }
  cbn [mbind result_bind] in H. rewrite Hrs' in H.
  injection H as <- _. done.
Qed.

Lemma rewards_from_seq_succeeds (s : Scenario B) :
  world_agents s ≠ [] → baselines_set s →
  ∃ s' rs, rewards_from s (seq 0 (length (world_agents s))) = Ok (s', rs).
Proof.
  intros Hne Hps. destruct (reward_first_succeeds s Hne Hps) as (s1 & r & Hr).
  pose proof Hr as Hr'.
  apply reward_first in Hr' as (a' & Hrec & _).
  destruct (recompute_spec _ _ _ _ Hrec) as (_ & _ & Hlen & _).
  destruct (world_agents s) as [|a0 rest] eqn:Es; [done|].
  cbn [length seq rewards_from]. rewrite Hr. cbn [mbind result_bind].
  destruct (rewards_from_others s1 (seq 1 (length rest))) as [rs' ->].
  { intros i Hi. apply elem_of_seq in Hi. rewrite Hlen. simpl. lia. }
  by eexists _, _.
Qed.

Lemma world_step_lookup mv (s : Scenario B) i :
  world_agents (world_step mv s) !! i
  = (λ a, with_state (with_vel (mv i).2 (with_pos (mv i).1 (state a))) a)
    <$> world_agents s !! i.
Proof. unfold world_step. simpl. apply list_lookup_imap. Qed.

Lemma world_step_baselines mv (s : Scenario B) :
  baselines_set s → baselines_set (world_step mv s).
Proof.
  intros H a Ha. apply list_elem_of_lookup in Ha as [i Hi].
  rewrite world_step_lookup in Hi.
  destruct (world_agents s !! i) as [a0|] eqn:E0; [|done].
  injection Hi as <-. simpl. apply H. apply list_elem_of_lookup. eauto.
Qed.

Lemma world_step_length mv (s : Scenario B) :
  length (world_agents (world_step mv s)) = length (world_agents s).
Proof. unfold world_step. simpl. apply length_imap. Qed.

(** One step, seen from the agent at index [i] in environment [e]: the
    progress reward is the old baseline minus the new one, and the new
    baseline is the shaped distance after the move. *)
Lemma env_step_spec mv (s s' : Scenario B) rs :
  world_agents s ≠ [] →
  env_step mv s = Ok (s', rs) →
  config s' = config s
  ∧ length (world_agents s') = length (world_agents s)
  ∧ baselines_set s'
  ∧ ∀ i a, world_agents s !! i = Some a →
      ∃ old a', pos_shaping a = Some old
        ∧ world_agents s' !! i = Some a'
        ∧ goal a' = goal a
        ∧ pos_shaping a' =
          Some (vmap (λ d, (d * pos_shaping_factor (config s))%R)
                     (goal_distance a'))
        ∧ pos_rew a' =
          vzip_with Rminus old
            (vmap (λ d, (d * pos_shaping_factor (config s))%R)
                  (goal_distance a')).
Proof.
  intros Hne H. unfold env_step in H.
  rewrite <- (world_step_length mv) in H.
  apply rewards_from_seq in H.
  2:{ intros Hnil. apply (f_equal length) in Hnil.
      rewrite world_step_length in Hnil. by destruct (world_agents s). }
  destruct (recompute_spec _ _ _ _ H) as (Hcfg & _ & Hlen & _ & Hag & _).
  rewrite world_step_length in Hlen.
  assert (Hstep : ∀ i a, world_agents s !! i = Some a →
            ∃ old a', pos_shaping a = Some old
              ∧ world_agents s' !! i = Some a'
              ∧ goal a' = goal a
              ∧ pos_shaping a' =
                Some (vmap (λ d, (d * pos_shaping_factor (config s))%R)
                           (goal_distance a'))
              ∧ pos_rew a' =
                vzip_with Rminus old
                  (vmap (λ d, (d * pos_shaping_factor (config s))%R)
                        (goal_distance a'))).
  { intros i a Hi.
    destruct (Hag i (with_state (with_vel (mv i).2
                                   (with_pos (mv i).1 (state a))) a))
      as (old & a' & Hold & Ha' & Hs & _).
    { by rewrite world_step_lookup, Hi. }
    exists old, a'. split; [done|]. split; [done|].
    destruct Hs as (Hst & _ & Hgo & Hpr & Hps & _).
    assert (Hd : goal_distance a'
                 = goal_distance (with_state
                     (with_vel (mv i).2 (with_pos (mv i).1 (state a))) a)).
    { unfold goal_distance. by rewrite Hst, Hgo. }
    rewrite Hgo, Hps, Hpr, Hd. done. }
  split; [done|]. split; [done|]. split; [|done].
  intros a' Ha'. apply list_elem_of_lookup in Ha' as [i Hi].
  destruct (lookup_lt_is_Some_2 (world_agents s) i) as [a Ha].
  { rewrite <- Hlen. by eapply lookup_lt_Some. }
  destruct (Hstep i a Ha) as (old & a'' & _ & Ha'' & _ & Hps & _).
  simplify_eq. by rewrite Hps.
Qed.

Lemma env_step_succeeds mv (s : Scenario B) :
  world_agents s ≠ [] → baselines_set s →
  ∃ s' rs, env_step mv s = Ok (s', rs).
Proof.
  intros Hne Hps. unfold env_step.
  rewrite <- (world_step_length mv).
  apply rewards_from_seq_succeeds.
  - intros Hnil. apply (f_equal length) in Hnil.
    rewrite world_step_length in Hnil. by destruct (world_agents s).
  - by apply world_step_baselines.
Qed.

(** The telescoping sum of the progress rewards of a trajectory. *)
Lemma run_telescopes moves (s : Scenario B) i a v (e : fin B) :
  world_agents s ≠ [] → baselines_set s →
  world_agents s !! i = Some a → pos_shaping a = Some v →
  ∃ tr, run moves s = Ok tr
    ∧ sum_R ((λ sr, step_pos_rew sr.1 i e) <$> tr)
      = if decide (moves = []) then 0%R
        else (v !!! e
              - dist_to_goal (final_state s tr) i e
                * pos_shaping_factor (config s))%R.
Proof.
  revert s a v. induction moves as [|mv moves IH]; intros s a v Hne Hps Hi Hv.
  - exists []. split; [done|]. by rewrite decide_True.
  - destruct (env_step_succeeds mv s Hne Hps) as (s1 & rs & Hstep).
    destruct (env_step_spec mv s s1 rs Hne Hstep)
      as (Hcfg & Hlen & Hps1 & Hag).
    destruct (Hag i a Hi) as (old & a1 & Hold & Ha1 & Hgo & Hps' & Hpr).
    assert (Hne1 : world_agents s1 ≠ []).
    { intros Hnil. rewrite Hnil in Ha1. done. }
    destruct (IH s1 a1 _ Hne1 Hps1 Ha1 Hps') as (tr & Htr & Hsum).
    exists ((s1, rs) :: tr). split.
    { simpl. rewrite Hstep. cbn [mbind result_bind]. simpl.
      rewrite Htr. done. }
    rewrite decide_False by done.
    rewrite fmap_cons, sum_R_cons, Hsum. simpl.
    unfold step_pos_rew at 1. rewrite Ha1, Hpr.
    rewrite vlookup_zip_with, vlookup_map, Hcfg.
    assert (old = v) as -> by congruence.
    destruct (decide (moves = [])) as [->|Hm].
    + injection Htr as <-. unfold final_state, dist_to_goal. simpl.
      rewrite Ha1. lra.
    + assert (Hfin : final_state s ((s1, rs) :: tr) = final_state s1 tr).
      { unfold final_state. destruct tr as [|sr tr'].
        - destruct moves as [|mv' moves']; [done|]. simpl in Htr.
          apply bind_Ok in Htr as (? & _ & Htr).
          apply bind_Ok in Htr as (? & _ & Htr). done.
        - rewrite last_cons_cons.
          destruct (last (sr :: tr')) as [x|] eqn:El; [done|].
          by apply last_None in El. }
      rewrite Hfin. lra.
Qed.

End StepFacts.

(** ** Well-formed worlds *)

Section WellFormed.
Context {B : nat}.

Lemma make_world_wf r0 arg kw (s : Scenario B) :
  make_world r0 B arg kw = Ok s →
  ¬ grouping_invalid (config s) ∧ agents_match_config s ∧ sensors_wired s
  ∧ min_collision_distance s = (5 / 1000)%R
  ∧ (∀ a, a ∈ world_agents s →
       shape_radius (state a) = agent_radius (config s)
       ∧ shape_radius (goal a) = r0).
Proof.
  rewrite make_world_config_in_force. intros H.
  apply bind_Ok in H as (cfg & _ & H).
  apply bind_Ok in H as (u & Hc & H). injection H as <-. simpl.
  apply check_config_unit in Hc. split; [done|].
  split; [red; simpl; by rewrite length_replicate|].
  split; [|split; [done|]].
  - intros a Ha. simpl in *. apply elem_of_replicate in Ha as [-> _]. done.
  - intros a Ha. simpl in *. apply elem_of_replicate in Ha as [-> _]. done.
Qed.

Lemma reset_world_at_wf spawn draw env_index (s s' : Scenario B) :
  reset_world_at spawn draw env_index s = Ok s' →
  (agents_match_config s → agents_match_config s')
  ∧ (sensors_wired s → sensors_wired s')
  ∧ baselines_set s'
  ∧ min_collision_distance s' = min_collision_distance s.
Proof.
  intros H. destruct (reset_world_at_config _ _ _ _ _ H) as [Hcfg Hlen].
  assert (Hback : ∀ a', a' ∈ world_agents s' →
            ∃ i a, world_agents s !! i = Some a
              ∧ reset_agent (config s) env_index
                  (draw <$> seq 0 (length (world_agents s))) i
                  (with_state (set_pos (spawn i) env_index (state a)) a)
                = Ok a').
  { intros a' Ha'. apply list_elem_of_lookup in Ha' as [i Hi].
    destruct (lookup_lt_is_Some_2 (world_agents s) i) as [a Ha].
    { rewrite <- Hlen. by eapply lookup_lt_Some. }
    destruct (reset_world_at_lookup _ _ _ _ _ _ _ H Ha) as (a'' & Ha'' & Hr).
    exists i, a. split; [done|]. congruence. }
  split; [|split; [|split]].
  - unfold agents_match_config. by rewrite Hcfg, Hlen.
  - intros Hw a' Ha'. destruct (Hback a' Ha') as (i & a & Ha & Hr).
    apply reset_agent_Ok in Hr as (_ & _ & _ & _ & _ & Hse & _ & _).
    rewrite Hse, Hcfg. simpl. apply Hw. apply list_elem_of_lookup. eauto.
  - intros a' Ha'. destruct (Hback a' Ha') as (i & a & Ha & Hr).
    apply reset_agent_Ok in Hr as (_ & _ & _ & _ & _ & _ & _ & Hps).
    destruct env_index; [destruct Hps as (? & _ & ->)|rewrite Hps]; done.
  - unfold reset_world_at in H.
    apply bind_Ok in H as (? & _ & H). by injection H as <-.
Qed.

End WellFormed.

(** ** Claims on the termination check and the reward engine *)

Lemma forallb_elem_of {A} (f : A → bool) (l : list A) :
  forallb f l = true ↔ ∀ x, x ∈ l → f x = true.
Proof.
  rewrite forallb_forall. split; intros H x Hx; apply H;
    by apply list_elem_of_In.
Qed.

Section EngineClaims.
Context {B : nat}.
Variable world_collides : Entity B → Entity B → bool.
Variable world_get_distance : Entity B → Entity B → vec R B.

Abbreviation reward := (reward world_collides world_get_distance).

(** C1 (amended). [done] answers, for every environment, whether every
    agent is closer to its goal than the radius of the agent's own shape;
    it returns a fresh tensor and has no access to write the scenario. *)
Theorem done_iff_within_agent_radius (s : Scenario B) :
  world_agents s ≠ [] →
  ∃ res, done s = Ok res
    ∧ ∀ e, res !!! e = true ↔
           ∀ a, a ∈ world_agents s →
             (goal_distance a !!! e < shape_radius (state a))%R.
Proof.
  intros Hne. unfold done.
  destruct (world_agents s) as [|a0 rest] eqn:Es; [done|].
  rewrite <- Es. clear Hne.
  destruct (stack_all _) as [res|err] eqn:Hres.
  2:{ rewrite Es in Hres. discriminate. }
  exists res. split; [done|]. intros e.
  rewrite (stack_all_lookup _ _ e Hres).
  rewrite forallb_elem_of. split.
  - intros H a Ha. apply Rltb_true.
    specialize (H (vmap (λ d, Rltb d (shape_radius (state a)))
                        (goal_distance a))).
    rewrite vlookup_map in H. apply H.
    apply list_elem_of_fmap. by exists a.
  - intros H v Hv. apply list_elem_of_fmap in Hv as (a & -> & Ha).
    rewrite vlookup_map. apply Rltb_true. by apply H.
Qed.

(** C3 (amended). Whenever the rewards of a step are computed, the terminal
    bonus of an environment is [final_reward] if every agent is on its goal
    in that environment at that step and zero if not, whatever happened at
    the steps before; it is a summand of the reward of every agent. *)
Theorem final_reward_on_every_on_goal_step (s : Scenario B) :
  world_agents s ≠ [] → baselines_set s →
  ∃ s' r0, reward s 0 = Ok (s', r0)
    ∧ (∀ e, self_final_rew s' !!! e
            = if forallb (λ a, on_goal_at a e) (world_agents s)
              then final_reward (config s) else 0%R)
    ∧ (∀ i a', world_agents s' !! i = Some a' →
         (i = 0 → r0 = reward_value s' a')
         ∧ (i ≠ 0 → reward s' i = Ok (s', reward_value s' a'))
         ∧ ∀ e, reward_value s' a' !!! e
                = ((if shared_rew (config s') then self_pos_rew s' !!! e
                    else pos_rew a' !!! e)
                   + self_final_rew s' !!! e
                   + agent_collision_rew a' !!! e)%R).
Proof.
  intros Hne Hps.
  destruct (reward_first_succeeds world_collides world_get_distance s Hne Hps)
    as (s' & r0 & Hr).
  exists s', r0. split; [done|].
  apply reward_first in Hr as (a0 & Hrec & Ha0 & ->).
  destruct (recompute_spec _ _ _ _ Hrec) as (_ & _ & _ & _ & _ & Hfin & _).
  split; [done|].
  intros i a' Ha'. split; [|split].
  - intros ->. by simplify_eq.
  - intros Hi. by apply reward_other.
  - intros e. unfold reward_value. rewrite !vlookup_zip_with.
    by destruct (shared_rew (config s')).
Qed.

End EngineClaims.

Section RewardClaims.
Context {B : nat}.
Variable world_collides : Entity B → Entity B → bool.
Variable world_get_distance : Entity B → Entity B → vec R B.

Abbreviation reward := (reward world_collides world_get_distance).
Abbreviation rewards_from :=
  (rewards_from world_collides world_get_distance).
Abbreviation run := (run world_collides world_get_distance).
Abbreviation partner_penalty :=
  (partner_penalty world_collides world_get_distance).

(** C5 (amended). For the agents other than the first, [reward] is a read
    of the scenario: it returns the scenario unchanged, so asking twice
    gives the same value and the order in which two such agents are asked
    does not matter; the recomputation of the shared state happens in the
    call for the first agent, and only there. *)
Theorem reward_read_only_for_other_agents (s : Scenario B) i j a b :
  i ≠ 0 → j ≠ 0 →
  world_agents s !! i = Some a → world_agents s !! j = Some b →
  reward s i = Ok (s, reward_value s a)
  ∧ rewards_from s [i; i] = Ok (s, [reward_value s a; reward_value s a])
  ∧ rewards_from s [i; j] = Ok (s, [reward_value s a; reward_value s b])
  ∧ rewards_from s [j; i] = Ok (s, [reward_value s b; reward_value s a])
  ∧ (∀ s' r, reward s 0 = Ok (s', r) →
       recompute world_collides world_get_distance s = Ok s').
Proof.
  intros Hi Hj Ha Hb.
  pose proof (reward_other world_collides world_get_distance s i a Hi Ha)
    as Hri.
  pose proof (reward_other world_collides world_get_distance s j b Hj Hb)
    as Hrj.
  fold (reward_value s a) in Hri. fold (reward_value s b) in Hrj.
  split; [done|].
  cbn [rewards_from]. rewrite Hri, Hrj. cbn [mbind result_bind].
  rewrite Hri, Hrj. cbn [mbind result_bind].
  repeat (split; [done|]).
  intros s' r Hr. by apply reward_first in Hr as (? & ? & _).
Qed.

(** C6. After the rewards of a step are computed, the collision penalty of
    the agent at index [k] in an environment is the sum, over the other
    agents [m], of the penalty of the pair [{k, m}]; for [i < j], when the
    world says the two agents collide and their distance is at most the
    threshold 0.005, the pair costs agent [i] and agent [j] the same
    configured amount [agent_collision_penalty]. *)
Theorem collision_penalty_symmetric (s : Scenario B) :
  world_agents s ≠ [] → baselines_set s →
  min_collision_distance s = (5 / 1000)%R →
  let ents := state <$> world_agents s in
  let pen := agent_collision_penalty (config s) in
  ∃ s' r0, reward s 0 = Ok (s', r0)
    ∧ state <$> world_agents s' = ents
    ∧ (∀ k a', world_agents s' !! k = Some a' → ∀ e,
         agent_collision_rew a' !!! e
         = sum_R ((λ m, partner_penalty (5 / 1000)%R pen ents k m e)
                  <$> seq 0 (length ents)))
    ∧ (∀ i j ai aj e, i < j → ents !! i = Some ai → ents !! j = Some aj →
         world_collides aj ai = true →
         (world_get_distance aj ai !!! e <= 5 / 1000)%R →
         partner_penalty (5 / 1000)%R pen ents i j e = pen
         ∧ partner_penalty (5 / 1000)%R pen ents j i e = pen).
Proof.
  intros Hne Hps Hthr ents pen. subst ents pen.
  destruct (reward_first_succeeds world_collides world_get_distance s Hne Hps)
    as (s' & r0 & Hr).
  exists s', r0. split; [done|].
  apply reward_first in Hr as (a0 & Hrec & _ & _).
  destruct (recompute_spec _ _ _ _ Hrec) as (_ & _ & Hlen & _ & Hag & _).
  rewrite Hthr in Hag.
  split; [|split].
  - apply list_eq. intros k. rewrite !list_lookup_fmap.
    destruct (world_agents s !! k) as [a|] eqn:Ek.
    + destruct (Hag k a Ek) as (old & a' & _ & -> & Hs & _).
      destruct Hs as (Hst & _). simpl. by rewrite Hst.
    + apply lookup_ge_None in Ek.
      rewrite (proj2 (lookup_ge_None _ k)) by lia. done.
  - intros k a' Hk e.
    destruct (lookup_lt_is_Some_2 (world_agents s) k) as [a Ha].
    { rewrite <- Hlen. by eapply lookup_lt_Some. }
    destruct (Hag k a Ha) as (old & a'' & _ & Hk'' & _ & Hc).
    simplify_eq. rewrite Hc, length_fmap. done.
  - intros i j ai aj e Hij Hi Hj Hc Hd.
    destruct (partner_penalty_sym world_collides world_get_distance
                (5 / 1000)%R (agent_collision_penalty (config s))
                _ i j ai aj e Hij Hi Hj) as [-> ->].
    rewrite (pair_penalty_hit _ _ _ _ _ _ e Hc Hd). done.
Qed.

(** C2. From a reset on, with [pos_shaping_factor = 1], the progress
    rewards of an agent over any trajectory add up to its distance to the
    goal at the reset minus its distance after the last step. *)
Theorem progress_reward_telescopes spawn draw env_index (s s0 : Scenario B)
    (moves : list (nat → vec V2 B * vec V2 B)) i (e : fin B) :
  reset_world_at spawn draw env_index s = Ok s0 →
  in_scope env_index e →
  pos_shaping_factor (config s) = 1%R →
  i < length (world_agents s) →
  ∃ tr, run moves s0 = Ok tr
    ∧ sum_R ((λ sr, step_pos_rew sr.1 i e) <$> tr)
      = (dist_to_goal s0 i e - dist_to_goal (final_state s0 tr) i e)%R.
Proof.
  intros Hr He Hf Hi.
  destruct (reset_world_at_config _ _ _ _ _ Hr) as [Hcfg Hlen].
  destruct (reset_world_at_wf _ _ _ _ _ Hr) as (_ & _ & Hps & _).
  destruct (lookup_lt_is_Some_2 _ _ Hi) as [a Ha].
  destruct (reset_world_at_lookup _ _ _ _ _ _ _ Hr Ha) as (a' & Ha' & Hra).
  apply reset_agent_Ok in Hra as (_ & _ & _ & _ & _ & _ & _ & Hsh).
  assert (Hv : ∃ v, pos_shaping a' = Some v
                    ∧ v !!! e = goal_distance a' !!! e).
  { destruct env_index as [e0|]; simpl in He.
    - destruct Hsh as (old & _ & ->). subst e0. eexists. split; [done|].
      rewrite vlookup_insert, Hf. lra.
    - eexists. split; [done|]. rewrite vlookup_map, Hf. lra. }
  destruct Hv as (v & Hv & Hve).
  assert (Hne : world_agents s0 ≠ []).
  { intros Hnil. rewrite Hnil in Ha'. done. }
  destruct (run_telescopes world_collides world_get_distance moves
              s0 i a' v e Hne Hps Ha' Hv) as (tr & Htr & Hsum).
  assert (Hd0 : dist_to_goal s0 i e = goal_distance a' !!! e).
  { unfold dist_to_goal. by rewrite Ha'. }
  exists tr. split; [done|]. rewrite Hsum, Hve, Hcfg, Hf.
  destruct (decide (moves = [])) as [->|Hm].
  - injection Htr as <-. unfold final_state. simpl. lra.
  - rewrite Hd0. lra.
Qed.

End RewardClaims.

(** ** The observation encoder *)

Section ObservationClaims.
Context {B : nat}.
Variable lidar_measure : Lidar → list (Entity B) → nat → vec (list R) B.

Lemma foldl_app_length (x : vec (list R) B) xs (e : fin B) :
  length (foldl (vzip_with app) x xs !!! e)
  = length (x !!! e)
    + sum_list_with (λ v : vec (list R) B, length (v !!! e)) xs.
Proof.
  revert x. induction xs as [|y xs IH]; intros x; simpl; [lia|].
  rewrite IH, vlookup_zip_with, length_app. lia.
Qed.

(** C7. On a world wired by [make_world], with a lidar that returns
    [n_rays] ranges per environment, the observation of every agent has, in
    every environment, the length
    [4 + (2 * n_agents if observe_all_goals else 2)
       + (n_lidar_rays if collisions else 0)]. *)
Theorem observation_length (s : Scenario B) i :
  (∀ l ents k e, length (lidar_measure l ents k !!! e) = Z.to_nat (n_rays l)) →
  agents_match_config s → sensors_wired s →
  (0 ≤ n_lidar_rays (config s))%Z →
  i < length (world_agents s) →
  ∃ obs, observation lidar_measure s i = Ok obs
    ∧ ∀ e, Z.of_nat (length (obs !!! e))
           = (4 + (if observe_all_goals (config s)
                   then 2 * n_agents (config s) else 2)
              + (if collisions (config s)
                 then n_lidar_rays (config s) else 0))%Z.
Proof.
  intros Hm Hn Hw Hrays Hi.
  destruct (lookup_lt_is_Some_2 _ _ Hi) as [a Ha].
  unfold observation, lookup_agent. rewrite Ha. cbn [mbind result_bind].
  rewrite (Hw a) by (apply list_elem_of_lookup; eauto).
  red in Hn.
  assert (Hgoals : ∀ e : fin B,
            sum_list_with (λ v : vec (list R) B, length (v !!! e))
               (if observe_all_goals (config s)
                then (λ a0 : Agent B,
                        vmap row_of_V2
                          (vzip_with v2_sub (pos (state a)) (pos (goal a0))))
                     <$> world_agents s
                else [vmap row_of_V2
                        (vzip_with v2_sub (pos (state a)) (pos (goal a)))])
            = if observe_all_goals (config s)
              then 2 * length (world_agents s) else 2).
  { intros e. destruct (observe_all_goals (config s)).
    - clear. induction (world_agents s) as [|a0 l IH]; csimpl; [lia|].
      rewrite IH, vlookup_map. simpl. lia.
    - simpl. rewrite vlookup_map. done. }
  destruct (collisions (config s)); cbn [py_getitem mbind result_bind].
  - simpl. eexists. split; [reflexivity|]. intros e.
    rewrite foldl_app_length, vlookup_zip_with, !vlookup_map, length_app.
    rewrite sum_list_with_app, Hgoals. simpl.
    rewrite vlookup_map, length_fmap, Hm. simpl.
    destruct (observe_all_goals (config s)); lia.
  - simpl. eexists. split; [reflexivity|]. intros e.
    rewrite foldl_app_length, vlookup_zip_with, !vlookup_map, length_app.
    rewrite app_nil_r, Hgoals. simpl.
    destruct (observe_all_goals (config s)); lia.
Qed.

End ObservationClaims.

(** * Worked instances *)

Lemma vector_norm_sub_x (x1 x2 y : R) :
  (x2 <= x1)%R → vector_norm (v2_sub (x1, y) (x2, y)) = (x1 - x2)%R.
Proof.
  intros H. unfold vector_norm, v2_sub. simpl.
  replace ((x1 - x2) * (x1 - x2) + (y - y) * (y - y))%R
    with ((x1 - x2) * (x1 - x2))%R by lra.
  apply sqrt_square. lra.
Qed.

Lemma well_typed_kwargs_empty : well_typed_kwargs ∅.
Proof. intros k v t Hk. rewrite lookup_empty in Hk. discriminate. Qed.

Lemma default_config_valid n : (1 ≤ n)%Z → ¬ grouping_invalid (default_config n).
Proof.
  intros Hn [H|[[H _]|[H _]]]; simpl in *; [lia|lia|discriminate].
Qed.

Lemma default_config_kwargs :
  BaseNavigationConfig_init ∅ = Ok (default_config 4).
Proof. reflexivity. Qed.

Lemma solo_start_reached :
  (w ← solo_world;
   reset_world_at (place [(1%R, 0%R)]) (place [(0%R, 0%R)]) None w)
  = Ok solo_start.
Proof. reflexivity. Qed.


(** C1, counterexample: [done] is true although the agent is not within the
    radius of its goal. *)
Lemma done_goal_radius_counterexample :
  ∃ res, done solo_near = Ok res
    ∧ res !!! 0%fin = true
    ∧ ¬ (∀ a, a ∈ world_agents solo_near →
           (goal_distance a !!! 0%fin < shape_radius (goal a))%R).
Proof.
  eexists. split; [reflexivity|]. split.
  - cbn -[vector_norm v2_sub]. apply Rltb_true.
    rewrite vector_norm_sub_x by lra. lra.
  - intros H.
    assert (Hd : (vector_norm (v2_sub ((3 / 40)%R, 0%R) (0%R, 0%R))
                  < 1 / 20)%R).
    { apply (H _ (list_elem_of_here _ _)). }
    rewrite vector_norm_sub_x in Hd by lra. lra.
Qed.

(** C5, counterexample: in one step, asking the reward of the first agent a
    second time gives a different value. *)
Lemma reward_first_agent_counterexample :
  ∃ s1 r1 s2 r2,
    reward flag_collides surface_distance solo_moved 0 = Ok (s1, r1)
    ∧ reward flag_collides surface_distance s1 0 = Ok (s2, r2)
    ∧ r1 !!! 0%fin ≠ r2 !!! 0%fin.
Proof.
  eexists _, _, _, _. split; [reflexivity|]. split; [reflexivity|].
  cbn -[vector_norm v2_sub Rltb Rleb].
  rewrite !vector_norm_sub_x by lra.
  destruct (Rltb (0 - 0) (1 / 20)); lra.
Qed.

(** C3, counterexample: the agent is off its goal at the reset, reaches it at
    the first step and stays there at the second; the bonus is in the reward
    of both steps, and at the second step it is the whole reward. *)
Lemma final_reward_repeats_counterexample :
  ∃ s1 rs1 s2 r2,
    env_step flag_collides surface_distance (move_to [(0%R, 0%R)]) solo_start
    = Ok (s1, rs1)
    ∧ env_step flag_collides surface_distance (move_to [(0%R, 0%R)]) s1
      = Ok (s2, [r2])
    ∧ forallb (λ a, on_goal_at a 0%fin) (world_agents solo_start) = false
    ∧ self_final_rew s1 !!! 0%fin = (1 / 100)%R
    ∧ self_final_rew s2 !!! 0%fin = (1 / 100)%R
    ∧ r2 !!! 0%fin = (1 / 100)%R.
Proof.
  assert (Hon : Rltb (0 - 0) (1 / 20) = true) by (apply Rltb_true; lra).
  eexists _, _, _, _. split; [reflexivity|]. split; [reflexivity|].
  split; [|split; [|split]].
  - cbn -[vector_norm v2_sub Rltb Rleb]. unfold on_goal_at.
    cbn -[vector_norm v2_sub Rltb Rleb].
    rewrite vector_norm_sub_x by lra.
    rewrite andb_true_r. apply not_true_is_false. intros H.
    apply Rltb_true in H. lra.
  - cbn -[vector_norm v2_sub Rltb Rleb].
    rewrite !vector_norm_sub_x by lra. by rewrite Hon.
  - cbn -[vector_norm v2_sub Rltb Rleb].
    rewrite !vector_norm_sub_x by lra. by rewrite Hon.
  - cbn -[vector_norm v2_sub Rltb Rleb].
    rewrite !vector_norm_sub_x by lra. rewrite Hon. lra.
Qed.

(** ** The theorems at concrete worlds *)

Ltac in_literal_list Ha :=
  repeat (apply elem_of_cons in Ha as [->|Ha]);
  [.. | by apply elem_of_nil in Ha].

Lemma solo_world_made : solo_world = Ok solo_made.
Proof. reflexivity. Qed.

Lemma solo_baselines mv : baselines_set (world_step mv solo_start).
Proof.
  apply world_step_baselines. intros a Ha. in_literal_list Ha. by eexists.
Qed.

Lemma pair_world_made :
  make_world (1 / 20)%R 2 (CfgInstance (default_config 2)) ∅ = Ok pair_made.
Proof. reflexivity. Qed.

Lemma pair_start_reached :
  reset_world_at (place [(0%R, 0%R); (1%R, 0%R)])
                 (place [(2%R, 0%R); (3%R, 0%R)]) None pair_made
  = Ok pair_start.
Proof. reflexivity. Qed.

Lemma pair_start_baselines : baselines_set pair_start.
Proof. intros a Ha. in_literal_list Ha; by eexists. Qed.

Lemma pair_close_baselines : baselines_set pair_close.
Proof. apply world_step_baselines, pair_start_baselines. Qed.

Lemma pair_made_wf :
  ¬ grouping_invalid (config pair_made) ∧ agents_match_config pair_made
  ∧ sensors_wired pair_made.
Proof.
  destruct (make_world_wf _ _ _ _ pair_world_made) as (H1 & H2 & H3 & _).
  done.
Qed.

Lemma full_range_lidar_length {B} l ents k (e : fin B) :
  length (full_range_lidar l ents k !!! e) = Z.to_nat (n_rays l).
Proof.
  unfold full_range_lidar. by rewrite vlookup_replicate, length_replicate.
Qed.

Lemma done_iff_within_agent_radius_witness :
  world_agents solo_near ≠ []
  ∧ ∃ res, done solo_near = Ok res
      ∧ ∀ e, res !!! e = true ↔
             ∀ a, a ∈ world_agents solo_near →
               (goal_distance a !!! e < shape_radius (state a))%R.
Proof.
  split; [discriminate|].
  apply (done_iff_within_agent_radius solo_near). discriminate.
Defined.

Lemma progress_reward_telescopes_witness :
  ∃ tr, run flag_collides surface_distance
          [move_to [((1 / 2)%R, 0%R)]; move_to [(0%R, 0%R)]] solo_start
        = Ok tr
    ∧ sum_R ((λ sr, step_pos_rew sr.1 0 0%fin) <$> tr)
      = (dist_to_goal solo_start 0 0%fin
         - dist_to_goal (final_state solo_start tr) 0 0%fin)%R.
Proof.
  apply (progress_reward_telescopes flag_collides surface_distance
           (place [(1%R, 0%R)]) (place [(0%R, 0%R)]) None
           solo_made solo_start).
  - reflexivity.
  - exact I.
  - reflexivity.
  - simpl. lia.
Defined.

Lemma final_reward_on_every_on_goal_step_witness :
  world_agents solo_moved ≠ [] ∧ baselines_set solo_moved
  ∧ ∃ s' r0, reward flag_collides surface_distance solo_moved 0 = Ok (s', r0)
      ∧ ∀ e, self_final_rew s' !!! e
             = if forallb (λ a, on_goal_at a e) (world_agents solo_moved)
               then final_reward (config solo_moved) else 0%R.
Proof.
  split; [discriminate|]. split; [apply solo_baselines|].
  destruct (final_reward_on_every_on_goal_step flag_collides surface_distance
              solo_moved) as (s' & r0 & Hr & Hfin & _).
  - discriminate.
  - apply solo_baselines.
  - exists s', r0. split; [exact Hr | exact Hfin].
Defined.

Lemma reward_read_only_for_other_agents_witness :
  let a := pair_agent (1%R, 0%R) (3%R, 0%R) in
  reward flag_collides surface_distance pair_start 1
  = Ok (pair_start, reward_value pair_start a)
  ∧ rewards_from flag_collides surface_distance pair_start [1; 1]
    = Ok (pair_start, [reward_value pair_start a; reward_value pair_start a]).
Proof.
  intros a.
  destruct (reward_read_only_for_other_agents flag_collides surface_distance
              pair_start 1 1 a a) as (H1 & H2 & _).
  - lia.
  - lia.
  - reflexivity.
  - reflexivity.
  - split; [exact H1 | exact H2].
Defined.

Lemma collision_penalty_symmetric_witness :
  let ents := state <$> world_agents pair_close in
  world_agents pair_close ≠ [] ∧ baselines_set pair_close
  ∧ min_collision_distance pair_close = (5 / 1000)%R
  ∧ (∃ s' r0, reward flag_collides surface_distance pair_close 0 = Ok (s', r0))
  ∧ ∀ e, partner_penalty flag_collides surface_distance
           (5 / 1000)%R (-1)%R ents 0 1 e = (-1)%R
         ∧ partner_penalty flag_collides surface_distance
             (5 / 1000)%R (-1)%R ents 1 0 e = (-1)%R.
Proof.
  intros ents. split; [discriminate|].
  split; [apply pair_close_baselines|]. split; [reflexivity|].
  destruct (collision_penalty_symmetric flag_collides surface_distance
              pair_close) as (s' & r0 & Hr & _ & _ & Hsym).
  - discriminate.
  - apply pair_close_baselines.
  - reflexivity.
  - split; [by exists s', r0|]. intros e.
    eapply (Hsym 0 1).
    + lia.
    + reflexivity.
    + reflexivity.
    + reflexivity.
    + unfold surface_distance. rewrite vlookup_zip_with.
      cbn -[vector_norm v2_sub lookup_total].
      assert (Hp : ∀ p : V2, ([# p; p] : vec V2 2) !!! e = p).
      { intros p. inv_fin e; [done|]. intros e. inv_fin e; [done|].
        intros e. inv_fin e. }
      rewrite !Hp, vector_norm_sub_x by lra. lra.
Defined.

Lemma observation_length_witness :
  ∃ obs, observation full_range_lidar pair_made 1 = Ok obs
    ∧ ∀ e, Z.of_nat (length (obs !!! e)) = 18%Z.
Proof.
  destruct pair_made_wf as (_ & Hn & Hw).
  apply (observation_length full_range_lidar pair_made 1).
  - intros. apply full_range_lidar_length.
  - exact Hn.
  - exact Hw.
  - simpl. lia.
  - simpl. lia.
Defined.


Lemma reset_goal_assignment_witness :
  ∃ s', reset_world_at (place [(0%R, 0%R); (1%R, 0%R)])
                       (place [(2%R, 0%R); (3%R, 0%R)]) None pair_made
        = Ok s'
    ∧ ∀ i, i < 2 →
        ∃ a' gp, world_agents s' !! i = Some a'
          ∧ ∀ e, pos (goal a') !!! e = gp e.
Proof.
  destruct pair_made_wf as (Hv & Hn & _).
  destruct (reset_goal_assignment (place [(0%R, 0%R); (1%R, 0%R)])
              (place [(2%R, 0%R); (3%R, 0%R)]) None pair_made Hv Hn)
    as ((s' & Hs' & Hag) & _).
  - by left.
  - exists s'. split; [exact Hs'|]. intros i Hi.
    destruct (Hag i Hi) as (a' & gp & Ha' & Hgp & _).
    exists a', gp. split; [exact Ha'|]. intros e. apply Hgp. exact I.
Defined.

Lemma reset_world_at_env_frame_witness :
  ∃ s', reset_world_at (place [((1 / 2)%R, 0%R); (1%R, 1%R)])
                       (place [(2%R, 1%R); (3%R, 1%R)]) (Some 0%fin)
                       pair_start
        = Ok s'
    ∧ ∀ i a, world_agents pair_start !! i = Some a →
        ∃ a' old new, world_agents s' !! i = Some a'
          ∧ pos_shaping a = Some old ∧ pos_shaping a' = Some new
          ∧ pos (goal a') !!! 1%fin = pos (goal a) !!! 1%fin
          ∧ new !!! 1%fin = old !!! 1%fin.
Proof.
  destruct (reset_world_at_env_frame
              (place [((1 / 2)%R, 0%R); (1%R, 1%R)])
              (place [(2%R, 1%R); (3%R, 1%R)]) 0%fin pair_start pair_start)
    as (s1' & s2' & Hs1 & _ & Hag).
  - apply default_config_valid. lia.
  - reflexivity.
  - apply pair_start_baselines.
  - reflexivity.
  - reflexivity.
  - apply pair_start_baselines.
  - exists s1'. split; [exact Hs1|]. intros i a Ha.
    destruct (Hag i a Ha)
      as (a1' & a2' & old1 & new1 & new2 & H1 & _ & H3 & H4 & _ & Hfr & _).
    exists a1', old1, new1. repeat (split; [assumption|]).
    apply Hfr. discriminate.
Defined.

(** ** The program of the heuristic controller has a feasible point *)

(** The slack variable keeps the constraints satisfiable for every
    observation as soon as the bound is not negative. *)
Lemma qp_constraints_feasible (pol : HeuristicPolicy) (u_range : R)
    (o : ObservationRow) :
  (0 <= u_range)%R → ∃ u slack, qp_constraints pol u_range o u slack.
Proof.
  intros H.
  exists (0%R, 0%R), (- (LfV_val o + clf_epsilon pol * V_value o))%R.
  unfold qp_constraints. simpl. repeat split; lra.
Qed.

(** * Further properties of the scenario file *)

(** ** [info] and [reward] *)

Section InfoFacts.
Context {B : nat}.
Variable world_collides : Entity B → Entity B → bool.
Variable world_get_distance : Entity B → Entity B → vec R B.

Abbreviation reward := (reward world_collides world_get_distance).

Lemma info_Ok (s : Scenario B) i a :
  world_agents s !! i = Some a →
  ∃ m, info s i = Ok m
    ∧ dom m = {["pos_rew"; "final_rew"; "agent_collisions"]}
    ∧ m !! "pos_rew"
      = Some (if shared_rew (config s) then self_pos_rew s else pos_rew a)
    ∧ m !! "final_rew" = Some (self_final_rew s)
    ∧ m !! "agent_collisions" = Some (agent_collision_rew a).
Proof.
  intros Ha. unfold info, lookup_agent. rewrite Ha.
  cbn [mbind result_bind]. eexists. split; [reflexivity|].
  split; [|split; [|split]].
  - rewrite !dom_insert_L, dom_empty_L. set_solver.
  - by rewrite lookup_insert_eq.
  - rewrite lookup_insert_ne by done. by rewrite lookup_insert_eq.
  - rewrite !(lookup_insert_ne _ _ "agent_collisions") by done.
    by rewrite lookup_insert_eq.
Qed.

(** What a successful call of [reward] returns and leaves behind. *)
Lemma reward_Ok (s s' : Scenario B) i r :
  reward s i = Ok (s', r) →
  ∃ a', world_agents s' !! i = Some a' ∧ r = reward_value s' a'
    ∧ (i ≠ 0 → s' = s)
    ∧ (i = 0 → recompute world_collides world_get_distance s = Ok s').
Proof.
  intros H. destruct (decide (i = 0)) as [->|Hi].
  - apply reward_first in H as (a' & Hrec & Ha' & ->).
    exists a'. repeat split; done.
  - pose proof H as H'. unfold reward in H'.
    apply bind_Ok in H' as (a & Ha & _).
    unfold lookup_agent in Ha.
    destruct (world_agents s !! i) as [a0|] eqn:Ea; [|done].
    rewrite (reward_other _ _ s i a0 Hi Ea) in H.
    injection H as <- <-. exists a0. repeat split; done.
Qed.

(** X1. The value [reward] returns for an agent is, in every environment,
    the sum of the three entries [info] reports for that agent right after
    the call; the dict has exactly these three keys. *)
Theorem reward_is_sum_of_info (s s' : Scenario B) i r :
  reward s i = Ok (s', r) →
  ∃ m p f c, info s' i = Ok m
    ∧ dom m = {["pos_rew"; "final_rew"; "agent_collisions"]}
    ∧ m !! "pos_rew" = Some p ∧ m !! "final_rew" = Some f
    ∧ m !! "agent_collisions" = Some c
    ∧ ∀ e, r !!! e = (p !!! e + f !!! e + c !!! e)%R.
Proof.
  intros H. apply reward_Ok in H as (a' & Ha' & -> & _).
  destruct (info_Ok s' i a' Ha') as (m & Hm & Hdom & Hp & Hf & Hc).
  eexists m, _, _, _. repeat (split; [eassumption|]).
  intros e. unfold reward_value. by rewrite !vlookup_zip_with.
Qed.

(** X5. [reward] never moves anything: the configuration, the collision
    threshold, the number of agents and, for every agent, its position and
    velocity, its sensors and its goal are the same after the call. *)
Theorem reward_keeps_physical_state (s s' : Scenario B) i r :
  reward s i = Ok (s', r) →
  config s' = config s
  ∧ min_collision_distance s' = min_collision_distance s
  ∧ length (world_agents s') = length (world_agents s)
  ∧ ∀ k a, world_agents s !! k = Some a →
      ∃ a', world_agents s' !! k = Some a'
        ∧ state a' = state a ∧ sensors a' = sensors a ∧ goal a' = goal a.
Proof.
  intros H. apply reward_Ok in H as (a' & Ha' & _ & Hne & Hfirst).
  destruct (decide (i = 0)) as [Hi|Hi].
  - destruct (recompute_spec _ _ _ _ (Hfirst Hi))
      as (Hcfg & Hthr & Hlen & _ & Hag & _).
    repeat (split; [done|]). intros k a Hk.
    destruct (Hag k a Hk) as (old & ak & _ & Hak & Hs & _).
    exists ak. split; [done|].
    destruct Hs as (Hst & Hse & Hgo & _). by rewrite Hst, Hse, Hgo.
  - rewrite (Hne Hi). repeat (split; [done|]). intros k a Hk. by exists a.
Qed.

(** X4. After the call for the first agent the shared progress reward is, in
    every environment, the sum over the agents of baseline minus shaped
    distance; with [shared_rew] the reward of every agent is that team sum
    plus the terminal bonus plus the agent's own collision penalty. *)
Theorem shared_reward_is_team_sum (s s' : Scenario B) r :
  reward s 0 = Ok (s', r) →
  (∀ e, self_pos_rew s' !!! e
        = sum_R ((λ a, progress_of (config s) a e) <$> world_agents s))
  ∧ (shared_rew (config s) = true →
     ∀ a' e, a' ∈ world_agents s' →
       reward_value s' a' !!! e
       = (sum_R ((λ a, progress_of (config s) a e) <$> world_agents s)
          + self_final_rew s' !!! e + agent_collision_rew a' !!! e)%R).
Proof.
  intros H. apply reward_Ok in H as (a0 & _ & _ & _ & Hfirst).
  destruct (recompute_spec _ _ _ _ (Hfirst eq_refl))
    as (Hcfg & _ & Hlen & _ & Hag & _ & Hsum).
  assert (Hteam : ∀ e, self_pos_rew s' !!! e
            = sum_R ((λ a, progress_of (config s) a e) <$> world_agents s)).
  { intros e. rewrite Hsum. f_equal. apply list_eq. intros k.
    rewrite !list_lookup_fmap.
    destruct (world_agents s !! k) as [a|] eqn:Ek.
    - destruct (Hag k a Ek) as (old & a' & Hold & -> & Hs & _). simpl.
      destruct Hs as (_ & _ & _ & -> & _). unfold progress_of.
      rewrite Hold. simpl. by rewrite vlookup_zip_with, vlookup_map.
    - apply lookup_ge_None in Ek.
      rewrite (proj2 (lookup_ge_None _ k)) by lia. done. }
  split; [done|]. intros Hsh a' e _.
  unfold reward_value. rewrite Hcfg, Hsh, !vlookup_zip_with, Hteam. done.
Qed.

End InfoFacts.

(** ** Resets, fresh worlds and the reward caches *)

Lemma sum_R_all_zero {A} (f : A → R) (l : list A) :
  (∀ x, x ∈ l → f x = 0%R) → sum_R (f <$> l) = 0%R.
Proof.
  intros H. rewrite (sum_R_ext f (λ _, 0%R)) by done. apply sum_R_zero.
Qed.

Section ResetExtras.
Context {B : nat}.
Variable world_collides : Entity B → Entity B → bool.
Variable world_get_distance : Entity B → Entity B → vec R B.
Variable spawn : nat → fin B → V2.
Variable draw : nat → fin B → V2.

Abbreviation reward := (reward world_collides world_get_distance).
Abbreviation reset_world_at := (reset_world_at spawn draw).

Lemma reset_agent_rewards cfg env_index gps i (a a' : Agent B) :
  reset_agent cfg env_index gps i a = Ok a' →
  pos_rew a' = pos_rew a ∧ agent_collision_rew a' = agent_collision_rew a.
Proof.
  unfold reset_agent. intros H.
  apply bind_Ok in H as (gi & _ & H). apply bind_Ok in H as (gp & _ & H).
  destruct env_index as [e|].
  - apply bind_Ok in H as (old & _ & H). by injection H as <-.
  - by injection H as <-.
Qed.

Lemma reset_world_at_caches env_index (s s' : Scenario B) :
  reset_world_at env_index s = Ok s' →
  self_pos_rew s' = self_pos_rew s ∧ self_final_rew s' = self_final_rew s
  ∧ all_goal_reached s' = all_goal_reached s.
Proof.
  unfold reset_world_at. intros H.
  apply bind_Ok in H as (? & _ & H). by injection H as <-.
Qed.

(** X2. A reset, of the whole batch or of one environment, does not clear
    the reward caches: for every agent [info] reports after the reset what
    it reported before it. *)
Theorem reset_keeps_info env_index (s s' : Scenario B) :
  reset_world_at env_index s = Ok s' → ∀ i, info s' i = info s i.
Proof.
  intros H i.
  destruct (reset_world_at_config _ _ _ _ _ H) as [Hcfg Hlen].
  destruct (reset_world_at_caches _ _ _ H) as (Hp & Hf & _).
  unfold info, lookup_agent.
  destruct (world_agents s !! i) as [a|] eqn:Ea.
  - destruct (reset_world_at_lookup _ _ _ _ _ _ _ H Ea) as (a' & -> & Hr).
    apply reset_agent_rewards in Hr as [Hpr Hcr]. simpl in Hpr, Hcr.
    cbn [mbind result_bind]. by rewrite Hcfg, Hp, Hf, Hpr, Hcr.
  - apply lookup_ge_None in Ea.
    rewrite (proj2 (lookup_ge_None (world_agents s') i)) by lia. done.
Qed.

(** X3. On the world [make_world] returns, before any full reset: the reward
    of the first agent raises [AttributeError] (no agent has a shaping
    baseline yet), so does the reset of a single environment, and the reward
    of every other agent is zero in every environment. *)
Theorem fresh_world_needs_full_reset r0 arg kw (s : Scenario B) :
  make_world r0 B arg kw = Ok s →
  reward s 0 = Raise AttributeError
  ∧ (∀ e, reset_world_at (Some e) s = Raise AttributeError)
  ∧ (∀ i, 0 < i < length (world_agents s) →
       ∃ r, reward s i = Ok (s, r) ∧ ∀ e, r !!! e = 0%R).
Proof.
  intros H. destruct (make_world_wf _ _ _ _ H) as (Hv & Hn & _).
  rewrite make_world_config_in_force in H.
  apply bind_Ok in H as (cfg & _ & H). apply bind_Ok in H as (u & _ & H).
  injection H as <-. simpl in Hv, Hn.
  assert (Hpos : (1 ≤ n_agents cfg)%Z).
  { destruct (decide (1 ≤ agents_with_same_goal cfg ≤ n_agents cfg)%Z);
      [lia|]. exfalso. apply Hv. by left. }
  destruct (Z.to_nat (n_agents cfg)) as [|m] eqn:Em; [lia|].
  split; [|split].
  - reflexivity.
  - intros e. unfold reset_world_at, spawn_agents.
    cbn [world_agents config replicate imap reset_loop].
    unfold reset_agent at 1.
    destruct (goal_index_valid cfg 0 Hv ltac:(lia)) as [-> Hr].
    cbn [mbind result_bind].
    rewrite (goal_poses_lookup draw)
      by (cbn [length]; rewrite length_imap, length_replicate; lia).
    reflexivity.
  - intros i Hi. cbn [world_agents length] in Hi.
    rewrite length_replicate in Hi.
    eexists. split.
    + apply reward_other; [lia|]. cbn [world_agents].
      destruct i as [|i]; [lia|]. simpl.
      apply lookup_replicate_2. lia.
    + intros e. simpl. rewrite !vlookup_zip_with.
      destruct (shared_rew cfg); unfold zeros;
        rewrite !vlookup_replicate; lra.
Qed.

(** X7. The first reward after a reset, before the integrator has moved
    anything, carries no progress: in the environments the reset touched,
    the progress reward of every agent and the shared one are zero. *)
Theorem no_progress_right_after_reset env_index (s s0 : Scenario B) :
  reset_world_at env_index s = Ok s0 → world_agents s ≠ [] →
  ∃ s1 r, reward s0 0 = Ok (s1, r)
    ∧ ∀ e, in_scope env_index e →
        (∀ a1, a1 ∈ world_agents s1 → pos_rew a1 !!! e = 0%R)
        ∧ self_pos_rew s1 !!! e = 0%R.
Proof.
  intros Hr Hne.
  destruct (reset_world_at_config _ _ _ _ _ Hr) as [Hcfg Hlen].
  destruct (reset_world_at_wf _ _ _ _ _ Hr) as (_ & _ & Hps & _).
  assert (Hne0 : world_agents s0 ≠ []).
  { intros Hnil. rewrite Hnil in Hlen. by destruct (world_agents s). }
  destruct (reward_first_succeeds world_collides world_get_distance
              s0 Hne0 Hps) as (s1 & r & Hrew).
  exists s1, r. split; [done|]. intros e He.
  apply reward_first in Hrew as (a' & Hrec & _ & _).
  destruct (recompute_spec _ _ _ _ Hrec)
    as (_ & _ & Hlen1 & _ & Hag & _ & Hsum).
  assert (Hzero : ∀ a1, a1 ∈ world_agents s1 → pos_rew a1 !!! e = 0%R).
  { intros a1 Ha1. apply list_elem_of_lookup in Ha1 as [k Hk].
    destruct (lookup_lt_is_Some_2 (world_agents s) k) as [a Ha].
    { rewrite <- Hlen, <- Hlen1. by eapply lookup_lt_Some. }
    destruct (reset_world_at_lookup _ _ _ _ _ _ _ Hr Ha) as (a0 & Ha0 & Hra).
    apply reset_agent_Ok in Hra as (_ & _ & _ & _ & _ & _ & _ & Hsh).
    destruct (Hag k a0 Ha0) as (old & a1' & Hold & Hk' & Hs & _).
    simplify_eq. destruct Hs as (_ & _ & _ & -> & _). simpl.
    rewrite vlookup_zip_with, vlookup_map.
    destruct env_index as [e0|]; simpl in He.
    - destruct Hsh as (old0 & _ & Hnew). subst e0.
      rewrite Hold in Hnew. injection Hnew as ->.
      rewrite vlookup_insert, Hcfg. lra.
    - rewrite Hold in Hsh. injection Hsh as ->.
      rewrite vlookup_map, Hcfg. lra. }
  split; [done|]. rewrite Hsum. by apply sum_R_all_zero.
Qed.

(** X8. After a reset on a configuration [make_world] accepts, two agents
    with the same goal index have their goal landmarks at the same position
    in every environment the reset touched; without [split_goals] these are
    in particular the first [agents_with_same_goal] agents. *)
Theorem grouped_goals_coincide env_index (s s' : Scenario B) i j ai aj :
  ¬ grouping_invalid (config s) → agents_match_config s →
  reset_world_at env_index s = Ok s' →
  world_agents s' !! i = Some ai → world_agents s' !! j = Some aj →
  (goal_index_of (config s) i = goal_index_of (config s) j →
   ∀ e, in_scope env_index e → pos (goal ai) !!! e = pos (goal aj) !!! e)
  ∧ (split_goals (config s) = false →
     (Z.of_nat i < agents_with_same_goal (config s))%Z →
     (Z.of_nat j < agents_with_same_goal (config s))%Z →
     ∀ e, in_scope env_index e → pos (goal ai) !!! e = pos (goal aj) !!! e).
Proof.
  intros Hv Hn Hr Hi Hj.
  destruct (reset_world_at_config _ _ _ _ _ Hr) as [_ Hlen].
  destruct (lookup_lt_is_Some_2 (world_agents s) i) as [a Ha].
  { rewrite <- Hlen. by eapply lookup_lt_Some. }
  destruct (lookup_lt_is_Some_2 (world_agents s) j) as [b Hb].
  { rewrite <- Hlen. by eapply lookup_lt_Some. }
  destruct (reset_closed_form _ _ _ _ _ _ _ Hv Hn Hr Ha)
    as (ai' & Hi' & _ & _ & Hgi & _).
  destruct (reset_closed_form _ _ _ _ _ _ _ Hv Hn Hr Hb)
    as (aj' & Hj' & _ & _ & Hgj & _).
  simplify_eq.
  assert (Hsame : goal_index_of (config s) i = goal_index_of (config s) j →
            ∀ e, in_scope env_index e →
              pos (goal ai) !!! e = pos (goal aj) !!! e).
  { intros Heq e He. rewrite Hgi, Hgj, Heq.
    by rewrite !set_pos_in_scope. }
  split; [done|]. intros Hs Hlti Hltj. apply Hsame.
  unfold goal_index_of. rewrite Hs.
  apply Z.ltb_lt in Hlti, Hltj. by rewrite Hlti, Hltj.
Qed.

End ResetExtras.

(** ** The terminal bonus and [done] *)

Section DoneExtras.
Context {B : nat}.
Variable world_collides : Entity B → Entity B → bool.
Variable world_get_distance : Entity B → Entity B → vec R B.

Abbreviation reward := (reward world_collides world_get_distance).
Abbreviation recompute := (recompute world_collides world_get_distance).

Lemma recompute_all_goal_reached (s s' : Scenario B) :
  recompute s = Ok s' →
  ∃ m, all_goal_reached s' = Some m
    ∧ ∀ e, m !!! e = forallb (λ a, on_goal_at a e) (world_agents s).
Proof.
  unfold recompute. intros H.
  apply bind_Ok in H as ([agents1 posr] & Hloop & H).
  apply bind_Ok in H as (on & Hon & H).
  apply bind_Ok in H as (reached & Hreached & H).
  injection H as <-. simpl. exists reached. split; [done|]. intros e.
  apply progress_loop_lookup in Hloop as [Hlen1 Hl1].
  rewrite (on_goal_progressed (config s) (world_agents s)) in Hon by done.
  injection Hon as <-.
  by rewrite (stack_all_lookup _ _ e Hreached), forallb_on_goal.
Qed.

Lemma done_lookup (s : Scenario B) res (e : fin B) :
  done s = Ok res →
  res !!! e
  = forallb (λ a, Rltb (goal_distance a !!! e) (shape_radius (state a)))
            (world_agents s).
Proof.
  unfold done. intros H. rewrite (stack_all_lookup _ _ e H). clear H.
  induction (world_agents s) as [|a l IH]; [done|].
  csimpl. by rewrite IH, vlookup_map.
Qed.

(** X6. When no goal is larger than its agent, the terminal bonus implies
    termination: in every environment where the recomputation finds all
    agents on their goals (and pays [final_reward]), [done] is true. *)
Theorem bonus_implies_done (s s' : Scenario B) r :
  reward s 0 = Ok (s', r) →
  (∀ a, a ∈ world_agents s →
     (shape_radius (goal a) <= shape_radius (state a))%R) →
  ∃ m res, all_goal_reached s' = Some m ∧ done s' = Ok res
    ∧ ∀ e, m !!! e = true →
        res !!! e = true
        ∧ self_final_rew s' !!! e = final_reward (config s).
Proof.
  intros H Hrad. apply reward_first in H as (a0 & Hrec & Ha0 & _).
  destruct (recompute_all_goal_reached _ _ Hrec) as (m & Hm & Hme).
  destruct (recompute_spec _ _ _ _ Hrec)
    as (_ & _ & Hlen & _ & Hag & Hfin & _).
  destruct (done s') as [res|err] eqn:Hdone.
  2:{ unfold done in Hdone. destruct (world_agents s'); [done|].
      discriminate. }
  exists m, res. split; [done|]. split; [done|]. intros e He.
  rewrite Hme in He. split; [|by rewrite Hfin, He].
  rewrite (done_lookup _ _ e Hdone). apply forallb_elem_of.
  intros a' Ha'. apply list_elem_of_lookup in Ha' as [k Hk].
  destruct (lookup_lt_is_Some_2 (world_agents s) k) as [a Ha].
  { rewrite <- Hlen. by eapply lookup_lt_Some. }
  destruct (Hag k a Ha) as (old & a'' & _ & Hk'' & Hs & _).
  simplify_eq. destruct Hs as (Hst & _ & Hgo & _). simpl in Hst, Hgo.
  unfold goal_distance. rewrite Hst, Hgo. apply Rltb_true.
  assert (Hin : a ∈ world_agents s) by (apply list_elem_of_lookup; eauto).
  pose proof (proj1 (forallb_elem_of _ _) He a Hin) as Hon.
  apply Rltb_true in Hon. unfold goal_distance in Hon.
  specialize (Hrad a Hin). lra.
Qed.

End DoneExtras.

(** ** The errors of [make_world] and the configurations it accepts *)

Lemma bind_Raise {A C} (f : A → result C) (m : result A) (e : exn) :
  m ≫= f = Raise e ↔ m = Raise e ∨ ∃ a, m = Ok a ∧ f a = Raise e.
Proof.
  destruct m as [a|e']; simpl.
  - split; [eauto|]. intros [?|(a' & [= <-] & H)]; done.
  - split; [intros [= <-]; by left|]. intros [[= <-]|(a' & ? & _)]; done.
Qed.

Lemma get_int_Raise kw k d e : get_int kw k d = Raise e → e = ValidationError.
Proof. unfold get_int. repeat case_match; congruence. Qed.

Lemma get_bool_Raise kw k d e : get_bool kw k d = Raise e → e = ValidationError.
Proof. unfold get_bool. repeat case_match; congruence. Qed.

Lemma get_float_Raise kw k d e :
  get_float kw k d = Raise e → e = ValidationError.
Proof. unfold get_float. repeat case_match; congruence. Qed.

Lemma BaseNavigationConfig_init_Raise kw e :
  BaseNavigationConfig_init kw = Raise e → e = ValidationError.
Proof.
  unfold BaseNavigationConfig_init. case_bool_decide; [|congruence].
  intros Hr.
  repeat (apply bind_Raise in Hr as [Hr|(? & _ & Hr)];
          [first [ by apply get_int_Raise in Hr
                 | by apply get_bool_Raise in Hr
                 | by apply get_float_Raise in Hr ]|]).
  discriminate.
Qed.

Lemma check_config_Raise_kind c e : check_config c = Raise e → e = AssertionError.
Proof.
  unfold check_config, py_assert. intros H.
  repeat case_match; simpl in H; congruence.
Qed.

(** X9. [make_world] raises a [ValidationError] only when no config object
    is given and the model rejects the keyword arguments; every other failure
    is an [AssertionError], for a config object of the wrong type or a broken
    grouping.  When a config object is given the keyword arguments are not
    looked at. *)
Theorem make_world_error_kinds (r0 : R) (B : nat) (arg : config_arg)
    (kw : gmap string value) :
  (∀ e, make_world r0 B arg kw = Raise e →
     (e = ValidationError ∧ arg = CfgNone
      ∧ BaseNavigationConfig_init kw = Raise ValidationError)
     ∨ (e = AssertionError
        ∧ (arg = CfgNotInstance
           ∨ ∃ c, config_in_force arg kw = Ok c ∧ grouping_invalid c)))
  ∧ (∀ c kw', make_world r0 B (CfgInstance c) kw
              = make_world r0 B (CfgInstance c) kw').
Proof.
  split; [|reflexivity].
  intros e H. rewrite make_world_config_in_force in H.
  apply bind_Raise in H as [H|(c & Hc & H)].
  - destruct arg as [|c|]; simpl in H.
    + left. pose proof (BaseNavigationConfig_init_Raise _ _ H) as ->. done.
    + discriminate.
    + injection H as <-. right. split; [done|]. by left.
  - apply bind_Raise in H as [H|(u & _ & H)]; [|discriminate].
    right. pose proof (check_config_Raise_kind _ _ H) as ->.
    split; [done|]. right. exists c. split; [done|].
    by eapply check_config_Raise.
Qed.

(** X10. A configuration [make_world] accepts has at least one agent; with
    collisions enabled every agent has a goal of its own
    ([agents_with_same_goal = 1]); with [split_goals] the team is two groups
    of [agents_with_same_goal] agents, and it can have collisions enabled
    only if it has exactly two agents. *)
Theorem accepted_configuration_shape (r0 : R) (B : nat) (arg : config_arg)
    (kw : gmap string value) (s : Scenario B) :
  make_world r0 B arg kw = Ok s →
  (1 ≤ n_agents (config s))%Z
  ∧ 1 ≤ length (world_agents s)
  ∧ (collisions (config s) = true → agents_with_same_goal (config s) = 1%Z)
  ∧ (split_goals (config s) = true →
     n_agents (config s) = (2 * agents_with_same_goal (config s))%Z
     ∧ (collisions (config s) = true → n_agents (config s) = 2%Z)).
Proof.
  intros H. destruct (make_world_wf _ _ _ _ H) as (Hv & Hn & _).
  red in Hn.
  assert (H1 : (1 ≤ agents_with_same_goal (config s) ≤ n_agents (config s))%Z).
  { destruct (decide (1 ≤ agents_with_same_goal (config s)
                      ≤ n_agents (config s))%Z); [done|].
    exfalso. apply Hv. by left. }
  assert (H2 : collisions (config s) = true →
               agents_with_same_goal (config s) = 1%Z).
  { intros Hc.
    destruct (decide (1 < agents_with_same_goal (config s))%Z); [|lia].
    exfalso. apply Hv. right. left. done. }
  split; [lia|]. split; [lia|]. split; [done|].
  intros Hs.
  assert (H3 : (n_agents (config s) `mod` 2 = 0)%Z
               ∧ agents_with_same_goal (config s)
                 = (n_agents (config s) `div` 2)%Z).
  { split.
    - destruct (decide (n_agents (config s) `mod` 2 = 0)%Z); [done|].
      exfalso. apply Hv. right. right. split; [done|]. by left.
    - destruct (decide (agents_with_same_goal (config s)
                        = (n_agents (config s) `div` 2)%Z)); [done|].
      exfalso. apply Hv. right. right. split; [done|]. by right. }
  destruct H3 as [Hm Hd].
  pose proof (Z.div_mod (n_agents (config s)) 2 ltac:(lia)) as Hdm.
  split; [lia|]. intros Hc. specialize (H2 Hc). lia.
Qed.

(** ** The obstacle variant *)

Section ObstacleFacts.
Variable sphere_default_radius : R.
Variable self_world : result unit.

Abbreviation add_obstacles := (add_obstacles self_world).
Abbreviation ObstacleScenario_make_world :=
  (ObstacleScenario_make_world sphere_default_radius self_world).

Lemma add_obstacles_Ok idx added obs :
  add_obstacles idx added = Ok obs ↔
  (idx = [] ∨ self_world = Ok tt) ∧ obs = added ++ (obstacle_at <$> idx).
Proof.
  revert added. induction idx as [|i idx IH]; intros added; simpl.
  - rewrite app_nil_r. split; [intros [= <-]; eauto|intros [_ ->]; done].
  - destruct self_world as [[]|e] eqn:Hw; simpl.
    + rewrite IH, <- app_assoc. simpl. split.
      * intros [_ ->]. split; [by right|done].
      * intros [_ ->]. split; [by right|done].
    + split; [discriminate|]. intros [[?|?] _]; discriminate.
Qed.

(** X11. [ObstacleScenario.make_world] succeeds exactly when it is given an
    [ObstacleNavigationConfig] with a valid grouping and, if there is an
    obstacle to add, the world of the scenario can be read; it then appends
    [n_obstacles] colliding, immovable obstacles numbered from 0.  Without a
    config object, or with a plain [BaseNavigationConfig], it always
    raises, whatever the keyword arguments. *)
Theorem obstacle_make_world_needs_obstacle_config (B : nat)
    (arg : obstacle_config_arg) (kw : gmap string value) :
  (∀ obs, ObstacleScenario_make_world B arg kw = Ok obs ↔
     ∃ c n, arg = ObsCfgObstacle c n ∧ ¬ grouping_invalid c
       ∧ ((0 < n)%Z → self_world = Ok tt)
       ∧ obs = obstacle_at <$> seq 0 (Z.to_nat n))
  ∧ (∀ c, arg = ObsCfgNone ∨ arg = ObsCfgBase c →
       ∃ e, ObstacleScenario_make_world B arg kw = Raise e).
Proof.
  assert (Hiff : ∀ obs, ObstacleScenario_make_world B arg kw = Ok obs ↔
     ∃ c n, arg = ObsCfgObstacle c n ∧ ¬ grouping_invalid c
       ∧ ((0 < n)%Z → self_world = Ok tt)
       ∧ obs = obstacle_at <$> seq 0 (Z.to_nat n)).
  { intros obs. unfold ObstacleScenario_make_world. split.
    - intros H. apply bind_Ok in H as (s & Hs & H).
      apply bind_Ok in H as (n & Hn & H).
      destruct arg as [|c|c n'|]; simpl in Hn; try discriminate.
      injection Hn as ->.
      rewrite make_world_config_in_force in Hs.
      apply bind_Ok in Hs as (c' & [= <-] & Hs).
      apply bind_Ok in Hs as (u & Hv & _). apply check_config_unit in Hv.
      apply add_obstacles_Ok in H as [Hw ->].
      exists c, n. split; [done|]. split.
      + done.
      + split; [|done]. intros Hpos. destruct Hw as [Hnil|?]; [|done].
        apply (f_equal length) in Hnil. rewrite length_seq in Hnil.
        simpl in Hnil. lia.
    - intros (c & n & -> & Hv & Hw & ->). simpl.
      rewrite make_world_config_in_force. simpl.
      apply check_config_Ok in Hv. rewrite Hv. cbn [mbind result_bind].
      apply add_obstacles_Ok. split; [|done].
      destruct (decide (0 < n)%Z) as [Hpos|Hneg]; [right; auto|left].
      by replace (Z.to_nat n) with 0 by lia. }
  split; [done|]. intros c Harg.
  assert (Hno : ∀ obs, ObstacleScenario_make_world B arg kw ≠ Ok obs).
  { intros obs E. apply Hiff in E as (c' & n & -> & _).
    destruct Harg; discriminate. }
  destruct (ObstacleScenario_make_world B arg kw) as [obs|e];
    [by destruct (Hno obs)|by eexists].
Qed.

End ObstacleFacts.

(** ** [extra_render] *)

Lemma vector_norm_nonneg (p : V2) : (0 <= vector_norm p)%R.
Proof. unfold vector_norm. apply sqrt_pos. Qed.

Lemma vector_norm_sub_zero (p q : V2) :
  vector_norm (v2_sub p q) = 0%R → p = q.
Proof.
  destruct p as [p1 p2], q as [q1 q2]. unfold vector_norm, v2_sub. simpl.
  intros H.
  apply sqrt_eq_0 in H; [|apply Rplus_le_le_0_compat; apply Rle_0_sqr].
  destruct (Rplus_sqr_eq_0 (p1 - q1) (p2 - q2) H) as [H1 H2].
  f_equal; lra.
Qed.

Section RenderFacts.
Context {B : nat}.

Lemma render_pair_app comms env_index (agents : list (Agent B)) geoms ij :
  render_pair comms env_index agents geoms ij
  = geoms ++ line_of comms env_index agents ij.
Proof.
  unfold line_of, render_pair.
  repeat case_match; by rewrite ?app_nil_r.
Qed.

Lemma render_fold comms env_index (agents : list (Agent B)) geoms pairs :
  foldl (render_pair comms env_index agents) geoms pairs
  = geoms ++ (pairs ≫= line_of comms env_index agents).
Proof.
  revert geoms. induction pairs as [|ij pairs IH]; intros geoms; simpl.
  - by rewrite app_nil_r.
  - rewrite IH, render_pair_app, <- app_assoc. done.
Qed.

Lemma elem_of_index_pairs n i j :
  (i, j) ∈ index_pairs n ↔ i < n ∧ j < n.
Proof.
  unfold index_pairs. rewrite list_elem_of_bind. split.
  - intros (i' & Hij & Hi'). apply list_elem_of_bind in Hij as (j' & Hij & Hj').
    apply list_elem_of_singleton in Hij. injection Hij as -> ->.
    apply elem_of_seq in Hi', Hj'. lia.
  - intros [Hi Hj]. exists i. split; [|apply elem_of_seq; lia].
    apply list_elem_of_bind. exists j.
    split; [by apply list_elem_of_singleton|apply elem_of_seq; lia].
Qed.

(** X12. [extra_render] draws a line exactly for the pairs of agents
    [i < j] whose distance in the rendered environment is at most
    [comms_range], from the position of agent [i] to that of agent [j]. *)
Theorem extra_render_lines (s : Scenario B) (env_index : fin B) (l : Line) :
  l ∈ extra_render s env_index ↔
  ∃ i j ai aj,
    i < j ∧ world_agents s !! i = Some ai ∧ world_agents s !! j = Some aj
    ∧ (vector_norm (v2_sub (pos (state ai) !!! env_index)
                           (pos (state aj) !!! env_index))
       <= comms_range (config s))%R
    ∧ l = {| line_start := pos (state ai) !!! env_index;
             line_end := pos (state aj) !!! env_index;
             line_width := 1 |}.
Proof.
  unfold extra_render. rewrite render_fold, app_nil_l, list_elem_of_bind.
  split.
  - intros ([i j] & Hl & Hij). unfold line_of, render_pair in Hl.
    simpl in Hl. case_bool_decide as Hle; [by apply elem_of_nil in Hl|].
    destruct (world_agents s !! i) as [ai|] eqn:Ei;
      [|by apply elem_of_nil in Hl].
    destruct (world_agents s !! j) as [aj|] eqn:Ej;
      [|by apply elem_of_nil in Hl].
    rewrite vlookup_zip_with in Hl.
    destruct (Rleb _ _) eqn:Hd; [|by apply elem_of_nil in Hl].
    apply list_elem_of_singleton in Hl. apply Rleb_true in Hd.
    exists i, j, ai, aj. repeat split; [lia|done..].
  - intros (i & j & ai & aj & Hij & Hi & Hj & Hd & ->).
    exists (i, j). split.
    + unfold line_of, render_pair. simpl.
      rewrite bool_decide_eq_false_2 by lia. rewrite Hi, Hj.
      rewrite vlookup_zip_with, (proj2 (Rleb_true _ _) Hd).
      by apply list_elem_of_singleton.
    + apply elem_of_index_pairs.
      split; by eapply lookup_lt_Some.
Qed.

(** X13. With a communication range that is not positive (the default is
    0) every line [extra_render] draws joins two agents at the very same
    position, and with a negative range it draws nothing. *)
Theorem extra_render_without_range (s : Scenario B) (env_index : fin B) :
  (comms_range (config s) <= 0)%R →
  (∀ l, l ∈ extra_render s env_index → line_start l = line_end l)
  ∧ ((comms_range (config s) < 0)%R → extra_render s env_index = []).
Proof.
  intros Hc.
  assert (Hline : ∀ l, l ∈ extra_render s env_index →
            ∃ p q, (vector_norm (v2_sub p q) <= comms_range (config s))%R
                   ∧ line_start l = p ∧ line_end l = q).
  { intros l Hl. unfold extra_render in Hl.
    rewrite render_fold, app_nil_l in Hl.
    apply list_elem_of_bind in Hl as ([i j] & Hl & _).
    unfold line_of, render_pair in Hl. simpl in Hl.
    repeat case_match; try by apply elem_of_nil in Hl.
    apply list_elem_of_singleton in Hl. subst l. simpl.
    eexists _, _. split; [|done].
    rewrite vlookup_zip_with in *. by apply Rleb_true. }
  split.
  - intros l Hl. destruct (Hline l Hl) as (p & q & Hd & -> & ->).
    apply vector_norm_sub_zero.
    pose proof (vector_norm_nonneg (v2_sub p q)). lra.
  - intros Hneg. destruct (extra_render s env_index) as [|l ls] eqn:E; [done|].
    destruct (Hline l (list_elem_of_here _ _)) as (p & q & Hd & _).
    pose proof (vector_norm_nonneg (v2_sub p q)). lra.
Qed.

End RenderFacts.

(** ** The heuristic controller *)

Lemma clf_inputs_six (a b c d g h : R) (rest : list R) :
  let o := {| obs_pos := (a, b); obs_vel := (c, d);
              obs_goal_delta := (g, h) |} in
  clf_inputs (a :: b :: c :: d :: g :: h :: rest)
  = Ok (V_value o, LfV_val o, LgV_vals o).
Proof. reflexivity. Qed.

Lemma quad_form_nonneg (a b : R) :
  (0 <= a * a + 5 / 10 * a * b + b * b)%R
  ∧ ((a * a + 5 / 10 * a * b + b * b = 0)%R → a = 0%R ∧ b = 0%R).
Proof.
  replace (a * a + 5 / 10 * a * b + b * b)%R
    with (Rsqr (a + b / 4) + Rsqr (b * (sqrt 15 / 4)))%R.
  - split.
    + apply Rplus_le_le_0_compat; apply Rle_0_sqr.
    + intros H. apply Rplus_sqr_eq_0 in H as [H1 H2].
      assert (Hs : (0 < sqrt 15)%R) by (apply sqrt_lt_R0; lra).
      assert (b = 0)%R by nra. split; lra.
  - unfold Rsqr.
    assert (Hs : (sqrt 15 * sqrt 15 = 15)%R) by (apply sqrt_sqrt; lra).
    replace (b * (sqrt 15 / 4) * (b * (sqrt 15 / 4)))%R
      with (b * b * (sqrt 15 * sqrt 15) / 16)%R by field.
    rewrite Hs. field.
Qed.

Section ControllerFacts.
Context {B : nat}.
Variable lidar_measure : Lidar → list (Entity B) → nat → vec (list R) B.

Lemma foldl_app_lookup (x : vec (list R) B) xs (e : fin B) :
  foldl (vzip_with app) x xs !!! e
  = x !!! e ++ (xs ≫= λ v : vec (list R) B, v !!! e).
Proof.
  revert x. induction xs as [|y xs IH]; intros x; simpl.
  - by rewrite app_nil_r.
  - rewrite IH, vlookup_zip_with, <- app_assoc. done.
Qed.

(** X14. The controller decodes what the encoder wrote: on a row of the
    observation of agent [i] it computes [V], [LfV] and [LgV] from the
    agent's position and velocity and from a goal position that is the
    agent's own goal without [observe_all_goals], and the goal of the first
    agent of the world with it. *)
Theorem controller_reads_observation (s : Scenario B) i (e : fin B)
    obs o target :
  observation lidar_measure s i = Ok obs →
  world_agents s !! (if observe_all_goals (config s) then 0 else i)
  = Some target →
  channels_of s i (if observe_all_goals (config s) then 0 else i) e = Some o →
  clf_inputs (obs !!! e) = Ok (V_value o, LfV_val o, LgV_vals o)
  ∧ goal_pos o = pos (goal target) !!! e.
Proof.
  intros Hobs Ht Ho. unfold observation, lookup_agent in Hobs.
  unfold channels_of in Ho. rewrite Ht in Ho.
  destruct (world_agents s !! i) as [agent|] eqn:Ei; [|done].
  simpl in Ho. injection Ho as <-.
  cbn [mbind result_bind] in Hobs.
  apply bind_Ok in Hobs as (lidar & _ & Hcat).
  simpl in Hcat. injection Hcat as <-.
  split.
  - rewrite foldl_app_lookup, vlookup_zip_with, !vlookup_map.
    destruct (observe_all_goals (config s)).
    + destruct (world_agents s) as [|a0 rest]; [done|].
      simpl in Ht. injection Ht as ->.
      csimpl. rewrite vlookup_map, vlookup_zip_with.
      destruct (pos (state agent) !!! e) as [px py].
      destruct (vel (state agent) !!! e) as [vx vy]. simpl.
      apply clf_inputs_six.
    + rewrite Ei in Ht. injection Ht as ->.
      csimpl. rewrite vlookup_map, vlookup_zip_with.
      destruct (pos (state target) !!! e) as [px py].
      destruct (vel (state target) !!! e) as [vx vy]. simpl.
      apply clf_inputs_six.
  - unfold goal_pos, v2_sub. simpl.
    destruct (pos (goal target) !!! e) as [gx gy].
    destruct (pos (state agent) !!! e) as [px py]. simpl.
    f_equal; lra.
Qed.

End ControllerFacts.

(** X15. The Lyapunov function the controller evaluates is positive
    definite: it is never negative, and it is zero exactly when the agent is
    at the decoded goal position with zero velocity. *)
Theorem V_value_positive_definite (o : ObservationRow) :
  (0 <= V_value o)%R
  ∧ (V_value o = 0%R ↔ obs_pos o = goal_pos o ∧ obs_vel o = (0%R, 0%R)).
Proof.
  destruct o as [[px py] [vx vy] [dx dy]].
  unfold V_value, goal_pos. simpl.
  set (ax := (px - -1 * (dx - px))%R). set (ay := (py - -1 * (dy - py))%R).
  destruct (quad_form_nonneg ax vx) as [Hx Hx0].
  destruct (quad_form_nonneg ay vy) as [Hy Hy0].
  split; [lra|]. split.
  - intros H.
    destruct Hx0 as [Hax Hvx]; [lra|]. destruct Hy0 as [Hay Hvy]; [lra|].
    subst ax ay. split; f_equal; lra.
  - intros [Hp Hv]. injection Hp as Hpx Hpy. injection Hv as -> ->.
    assert (ax = 0)%R by (subst ax; lra).
    assert (ay = 0)%R by (subst ay; lra).
    replace ax with 0%R. replace ay with 0%R. lra.
Qed.

(** X16. When the decrease condition already holds without control
    ([LfV + epsilon * V <= 0]), with a bound and a slack weight that are not
    negative, the zero action with zero slack solves the program, and every
    solution of the program has the zero action. *)
Theorem zero_action_solves_qp (pol : HeuristicPolicy) (u_range : R)
    (o : ObservationRow) :
  (LfV_val o + clf_epsilon pol * V_value o <= 0)%R →
  (0 <= u_range)%R → (0 <= clf_slack pol)%R →
  qp_minimiser pol u_range o (0%R, 0%R) 0%R
  ∧ ∀ u slack, qp_minimiser pol u_range o u slack → u = (0%R, 0%R).
Proof.
  intros Hdec Hu Hw.
  assert (Hobj : ∀ u slack, (0 <= qp_objective pol u slack)%R).
  { intros [u1 u2] sl. unfold qp_objective. simpl.
    pose proof (Rle_0_sqr u1). pose proof (Rle_0_sqr u2).
    pose proof (Rle_0_sqr sl). unfold Rsqr in *. nra. }
  assert (Hmin : qp_minimiser pol u_range o (0%R, 0%R) 0%R).
  { split.
    - unfold qp_constraints. simpl. repeat split; lra.
    - intros u' sl' _. specialize (Hobj u' sl').
      unfold qp_objective at 1. simpl. lra. }
  split; [done|]. intros [u1 u2] sl [_ Hbest].
  specialize (Hbest (0%R, 0%R) 0%R (proj1 Hmin)).
  unfold qp_objective in Hbest. simpl in Hbest.
  pose proof (Rle_0_sqr u1) as H1. pose proof (Rle_0_sqr u2) as H2.
  pose proof (Rle_0_sqr sl) as H3. unfold Rsqr in *.
  assert (Hs : (0 <= clf_slack pol * (sl * sl))%R)
    by (apply Rmult_le_pos; lra).
  assert (Hsum : (u1 * u1 + u2 * u2 = 0)%R) by lra.
  destruct (Rplus_sqr_eq_0 u1 u2 Hsum) as [-> ->]. done.
Qed.

(** X17. The program of the controller has a feasible point exactly when
    the action bound is not negative: the slack absorbs the decrease
    condition, nothing absorbs an empty box. *)
Theorem qp_feasible_iff_bound_nonneg (pol : HeuristicPolicy) (u_range : R)
    (o : ObservationRow) :
  (∃ u slack, qp_constraints pol u_range o u slack) ↔ (0 <= u_range)%R.
Proof.
  split.
  - intros (u & slack & H1 & _ & H3 & _). lra.
  - intros H.
    exists (0%R, 0%R), (- (LfV_val o + clf_epsilon pol * V_value o))%R.
    unfold qp_constraints. simpl. repeat split; lra.
Qed.

(** X18. The part of [compute_action] before the solver needs five
    channels: it raises on a shorter row; on a row of exactly five channels
    the single goal channel is broadcast to both coordinates. *)
Theorem clf_inputs_needs_five_channels (row : list R) :
  ((∃ r, clf_inputs row = Ok r) ↔ 5 ≤ length row)
  ∧ (∀ a b c d g, clf_inputs [a; b; c; d; g] = clf_inputs [a; b; c; d; g; g]).
Proof.
  split; [|reflexivity].
  destruct row as [|a [|b [|c [|d [|g [|h rest]]]]]].
  1-5: (split; [intros [r Hr]; discriminate Hr|simpl; lia]).
  - split; [simpl; lia|]. intros _. by eexists.
  - split; [simpl; lia|]. intros _. eexists. apply clf_inputs_six.
Qed.

(** ** Counting collisions *)

Lemma sum_R_indicator {A} (P : A → bool) (c : R) (l : list A) :
  sum_R ((λ x, if P x then c else 0%R) <$> l)
  = (c * INR (length (filter (λ x, P x = true) l)))%R.
Proof.
  induction l as [|x l IH].
  - unfold sum_R. simpl. lra.
  - rewrite fmap_cons, sum_R_cons, IH. destruct (P x) eqn:Hx.
    + rewrite filter_cons_True by done. rewrite length_cons, S_INR. lra.
    + rewrite filter_cons_False by congruence. lra.
Qed.

Section CollisionCountFacts.
Context {B : nat}.
Variable world_collides : Entity B → Entity B → bool.
Variable world_get_distance : Entity B → Entity B → vec R B.

Abbreviation reward := (reward world_collides world_get_distance).
Abbreviation in_collision :=
  (in_collision world_collides world_get_distance).

Lemma partner_penalty_in_collision thr pen (ents : list (Entity B)) k m e :
  partner_penalty world_collides world_get_distance thr pen ents k m e
  = if in_collision thr ents k m e then pen else 0%R.
Proof.
  unfold partner_penalty, in_collision, pair_penalty.
  repeat case_match; done.
Qed.

(** X19. After the rewards of a step are computed, the collision penalty of
    an agent in an environment is [agent_collision_penalty] times the number
    of agents it is in collision with at that step; nothing is carried over
    from the accumulator of the step before. *)
Theorem collision_penalty_counts_partners (s s' : Scenario B) r k a'
    (e : fin B) :
  reward s 0 = Ok (s', r) → world_agents s' !! k = Some a' →
  agent_collision_rew a' !!! e
  = (agent_collision_penalty (config s)
     * INR (length
              (filter (λ m, in_collision (min_collision_distance s)
                              (state <$> world_agents s) k m e = true)
                      (seq 0 (length (world_agents s))))))%R.
Proof.
  intros H Hk. apply reward_first in H as (a0 & Hrec & _ & _).
  destruct (recompute_spec _ _ _ _ Hrec) as (_ & _ & Hlen & _ & Hag & _).
  destruct (lookup_lt_is_Some_2 (world_agents s) k) as [a Ha].
  { rewrite <- Hlen. by eapply lookup_lt_Some. }
  destruct (Hag k a Ha) as (old & a'' & _ & Hk'' & _ & Hc).
  simplify_eq. rewrite Hc, <- sum_R_indicator.
  apply sum_R_ext. intros m _. apply partner_penalty_in_collision.
Qed.

End CollisionCountFacts.

(** ** The layout of the observation *)

Lemma bind_pairs_lookup {A} (f : A → list R) (l : list A) k x j :
  (∀ y, length (f y) = 2) → l !! k = Some x → j < 2 →
  (l ≫= f) !! (2 * k + j) = f x !! j.
Proof.
  intros Hf. revert k. induction l as [|y l IH]; intros k Hk Hj; [done|].
  rewrite bind_cons. destruct k as [|k]; simpl in Hk.
  - injection Hk as ->. rewrite lookup_app_l by (rewrite Hf; lia).
    by rewrite Nat.mul_0_r.
  - rewrite lookup_app_r by (rewrite Hf; lia). rewrite Hf.
    replace (2 * S k + j - 2) with (2 * k + j) by lia. by apply IH.
Qed.

Lemma lookup_after_four {A} (pre mid post : list A) n :
  length pre = 4 → n < length mid →
  (pre ++ mid ++ post) !! (4 + n) = mid !! n.
Proof.
  intros Hpre Hn. rewrite lookup_app_r by lia.
  rewrite Hpre, lookup_app_l by lia. f_equal. lia.
Qed.

Section LayoutFacts.
Context {B : nat}.
Variable lidar_measure : Lidar → list (Entity B) → nat → vec (list R) B.

(** X20. Every row of the observation of an agent starts with its position
    and its velocity; with [observe_all_goals] the channels [4 + 2k] and
    [5 + 2k] are the agent's position relative to the goal of the agent at
    index [k], in the order of the agents of the world. *)
Theorem observation_layout (s : Scenario B) i (e : fin B) obs agent :
  observation lidar_measure s i = Ok obs →
  world_agents s !! i = Some agent →
  let p := pos (state agent) !!! e in
  let v := vel (state agent) !!! e in
  take 4 (obs !!! e) = [p.1; p.2; v.1; v.2]
  ∧ (observe_all_goals (config s) = true →
     ∀ k ak, world_agents s !! k = Some ak →
       (obs !!! e) !! (4 + 2 * k)
       = Some (p.1 - (pos (goal ak) !!! e).1)%R
       ∧ (obs !!! e) !! (5 + 2 * k)
         = Some (p.2 - (pos (goal ak) !!! e).2)%R).
Proof.
  intros Hobs Hi p v. unfold observation, lookup_agent in Hobs.
  rewrite Hi in Hobs. cbn [mbind result_bind] in Hobs.
  apply bind_Ok in Hobs as (lidar & _ & Hcat).
  simpl in Hcat. injection Hcat as <-.
  rewrite foldl_app_lookup, vlookup_zip_with, !vlookup_map.
  split; [done|]. intros Hall k ak Hk. rewrite Hall.
  rewrite bind_app, list_fmap_bind.
  set (block := (λ v0 : vec (list R) B, v0 !!! e)
                ∘ (λ a : Agent B,
                     vmap row_of_V2
                       (vzip_with v2_sub (pos (state agent)) (pos (goal a))))).
  assert (Hlen : ∀ y : Agent B, length (block y) = 2).
  { intros y. unfold block. simpl. by rewrite vlookup_map. }
  assert (Hmid : ∀ j, j < 2 →
            (world_agents s ≫= block) !! (2 * k + j)
            = row_of_V2 (v2_sub p (pos (goal ak) !!! e)) !! j).
  { intros j Hj. rewrite (bind_pairs_lookup _ _ k ak j Hlen Hk Hj).
    unfold block. simpl. by rewrite vlookup_map, vlookup_zip_with. }
  split.
  - replace (4 + 2 * k) with (4 + (2 * k + 0)) by lia.
    rewrite lookup_after_four; [by rewrite Hmid by lia|done|].
    apply lookup_lt_is_Some. rewrite Hmid by lia. by eexists.
  - replace (5 + 2 * k) with (4 + (2 * k + 1)) by lia.
    rewrite lookup_after_four; [by rewrite Hmid by lia|done|].
    apply lookup_lt_is_Some. rewrite Hmid by lia. by eexists.
Qed.

End LayoutFacts.

(** ** The further properties at concrete worlds *)

Lemma team_world_made :
  make_world (1 / 20)%R 2 (CfgInstance team_config) ∅ = Ok team_made.
Proof. reflexivity. Qed.

Lemma solo_moved_radii a :
  a ∈ world_agents solo_moved →
  (shape_radius (goal a) <= shape_radius (state a))%R.
Proof.
  intros Ha. cbn in Ha. in_literal_list Ha. simpl. lra.
Qed.

Lemma reward_is_sum_of_info_witness :
  ∃ s' r, reward flag_collides surface_distance solo_moved 0 = Ok (s', r)
    ∧ ∃ m p f c, info s' 0 = Ok m
        ∧ dom m = {["pos_rew"; "final_rew"; "agent_collisions"]}
        ∧ m !! "pos_rew" = Some p ∧ m !! "final_rew" = Some f
        ∧ m !! "agent_collisions" = Some c
        ∧ ∀ e, r !!! e = (p !!! e + f !!! e + c !!! e)%R.
Proof.
  destruct (reward_first_succeeds flag_collides surface_distance solo_moved)
    as (s' & r & Hr).
  - discriminate.
  - apply solo_baselines.
  - exists s', r. split; [exact Hr|].
    exact (reward_is_sum_of_info _ _ _ _ _ _ Hr).
Defined.

Lemma reset_keeps_info_witness :
  ∃ (s : Scenario 1) r s' m f,
    reward flag_collides surface_distance solo_moved 0 = Ok (s, r)
    ∧ reset_world_at (place [(1%R, 0%R)]) (place [(0%R, 0%R)]) None s = Ok s'
    ∧ info s' 0 = info s 0
    ∧ info s 0 = Ok m
    ∧ m !! "final_rew" = Some f
    ∧ f !!! 0%fin = (1 / 100)%R.
Proof.
  assert (Hon : Rltb (0 - 0) (1 / 20) = true) by (apply Rltb_true; lra).
  eexists _, _, _, _, _. split; [reflexivity|]. split; [reflexivity|].
  split.
  - apply (reset_keeps_info (place [(1%R, 0%R)]) (place [(0%R, 0%R)]) None).
    reflexivity.
  - split; [reflexivity|]. split.
    + rewrite lookup_insert_ne by done. apply lookup_insert_eq.
    + cbn -[vector_norm v2_sub Rltb Rleb].
      rewrite !vector_norm_sub_x by lra. by rewrite Hon.
Defined.

Lemma fresh_world_needs_full_reset_witness :
  reward flag_collides surface_distance pair_made 0 = Raise AttributeError
  ∧ (∀ e, reset_world_at (place [(0%R, 0%R); (1%R, 0%R)])
            (place [(2%R, 0%R); (3%R, 0%R)]) (Some e) pair_made
          = Raise AttributeError)
  ∧ (∀ i, 0 < i < length (world_agents pair_made) →
       ∃ r, reward flag_collides surface_distance pair_made i
            = Ok (pair_made, r) ∧ ∀ e, r !!! e = 0%R).
Proof.
  apply (fresh_world_needs_full_reset flag_collides surface_distance
           (place [(0%R, 0%R); (1%R, 0%R)]) (place [(2%R, 0%R); (3%R, 0%R)])
           (1 / 20)%R (CfgInstance (default_config 2)) ∅ pair_made).
  apply pair_world_made.
Defined.

Lemma shared_reward_is_team_sum_witness :
  ∃ s' r, reward flag_collides surface_distance pair_close 0 = Ok (s', r)
    ∧ ∀ e, self_pos_rew s' !!! e
           = sum_R ((λ a, progress_of (config pair_close) a e)
                    <$> world_agents pair_close).
Proof.
  destruct (reward_first_succeeds flag_collides surface_distance pair_close)
    as (s' & r & Hr).
  - discriminate.
  - apply pair_close_baselines.
  - exists s', r. split; [exact Hr|].
    exact (proj1 (shared_reward_is_team_sum _ _ _ _ _ Hr)).
Defined.

Lemma reward_keeps_physical_state_witness :
  ∃ s' r, reward flag_collides surface_distance pair_close 0 = Ok (s', r)
    ∧ config s' = config pair_close
    ∧ length (world_agents s') = length (world_agents pair_close).
Proof.
  destruct (reward_first_succeeds flag_collides surface_distance pair_close)
    as (s' & r & Hr).
  - discriminate.
  - apply pair_close_baselines.
  - exists s', r. split; [exact Hr|].
    destruct (reward_keeps_physical_state _ _ _ _ _ _ Hr)
      as (Hc & _ & Hl & _).
    split; [exact Hc | exact Hl].
Defined.

Lemma bonus_implies_done_witness :
  ∃ s' r m res,
    reward flag_collides surface_distance solo_moved 0 = Ok (s', r)
    ∧ all_goal_reached s' = Some m ∧ done s' = Ok res
    ∧ ∀ e, m !!! e = true → res !!! e = true.
Proof.
  destruct (reward_first_succeeds flag_collides surface_distance solo_moved)
    as (s' & r & Hr).
  - discriminate.
  - apply solo_baselines.
  - destruct (bonus_implies_done _ _ _ _ _ Hr solo_moved_radii)
      as (m & res & Hm & Hd & Hall).
    exists s', r, m, res. split; [exact Hr|]. split; [exact Hm|].
    split; [exact Hd|]. intros e He. exact (proj1 (Hall e He)).
Defined.

Lemma no_progress_right_after_reset_witness :
  ∃ s1 r, reward flag_collides surface_distance pair_start 0 = Ok (s1, r)
    ∧ ∀ e, self_pos_rew s1 !!! e = 0%R.
Proof.
  destruct (no_progress_right_after_reset flag_collides surface_distance
              (place [(0%R, 0%R); (1%R, 0%R)])
              (place [(2%R, 0%R); (3%R, 0%R)]) None pair_made pair_start)
    as (s1 & r & Hr & Hz).
  - apply pair_start_reached.
  - discriminate.
  - exists s1, r. split; [exact Hr|]. intros e. exact (proj2 (Hz e I)).
Defined.

Lemma grouped_goals_coincide_witness :
  ∃ s' a0 a1,
    reset_world_at (place [(0%R, 0%R); (1%R, 0%R)])
                   (place [(2%R, 0%R); (3%R, 0%R)]) None team_made = Ok s'
    ∧ world_agents s' !! 0 = Some a0 ∧ world_agents s' !! 1 = Some a1
    ∧ ∀ e, pos (goal a0) !!! e = pos (goal a1) !!! e.
Proof.
  destruct (make_world_wf _ _ _ _ team_world_made) as (Hv & Hn & _).
  eexists _, _, _. split; [reflexivity|]. split; [reflexivity|].
  split; [reflexivity|]. intros e.
  eapply (proj2 (grouped_goals_coincide
                   (place [(0%R, 0%R); (1%R, 0%R)])
                   (place [(2%R, 0%R); (3%R, 0%R)]) None team_made _ 0 1 _ _
                   Hv Hn eq_refl eq_refl eq_refl)).
  - reflexivity.
  - simpl. lia.
  - simpl. lia.
  - exact I.
Defined.

Lemma accepted_configuration_shape_witness :
  (1 ≤ n_agents (config pair_made))%Z
  ∧ 1 ≤ length (world_agents pair_made)
  ∧ (collisions (config pair_made) = true →
     agents_with_same_goal (config pair_made) = 1%Z).
Proof.
  destruct (accepted_configuration_shape _ _ _ _ _ pair_world_made)
    as (H1 & H2 & H3 & _).
  split; [exact H1|]. split; [exact H2 | exact H3].
Defined.

Lemma extra_render_without_range_witness :
  (comms_range (config pair_meet) <= 0)%R
  ∧ extra_render pair_meet 0%fin
    = [ {| line_start := (1%R, 0%R); line_end := (1%R, 0%R);
           line_width := 1 |} ]
  ∧ ∀ l, l ∈ extra_render pair_meet 0%fin → line_start l = line_end l.
Proof.
  assert (H : (comms_range (config pair_meet) <= 0)%R) by (simpl; lra).
  split; [exact H|]. split.
  - unfold extra_render, pair_meet, world_step, render_pair.
    cbn -[vector_norm v2_sub Rleb].
    rewrite vector_norm_sub_x by lra.
    rewrite (proj2 (Rleb_true _ _)) by lra. reflexivity.
  - exact (proj1 (extra_render_without_range pair_meet 0%fin H)).
Defined.

Lemma controller_reads_observation_witness :
  ∃ obs o, observation full_range_lidar pair_start 1 = Ok obs
    ∧ clf_inputs (obs !!! 0%fin) = Ok (V_value o, LfV_val o, LgV_vals o)
    ∧ goal_pos o = (3%R, 0%R).
Proof.
  eexists _, _. split; [reflexivity|].
  apply (controller_reads_observation full_range_lidar pair_start 1 0%fin
           _ _ (pair_agent (1%R, 0%R) (3%R, 0%R))); reflexivity.
Defined.

Lemma zero_action_solves_qp_witness :
  qp_minimiser default_policy 1%R row_at_rest (0%R, 0%R) 0%R.
Proof.
  apply (zero_action_solves_qp default_policy 1%R row_at_rest).
  - unfold LfV_val, V_value, row_at_rest. simpl. lra.
  - lra.
  - simpl. lra.
Defined.

Lemma collision_penalty_counts_partners_witness :
  ∃ s' r a', reward flag_collides surface_distance pair_close 0 = Ok (s', r)
    ∧ world_agents s' !! 0 = Some a'
    ∧ ∀ e, agent_collision_rew a' !!! e
           = (agent_collision_penalty (config pair_close)
              * INR (length
                       (filter
                          (λ m, in_collision flag_collides surface_distance
                                  (min_collision_distance pair_close)
                                  (state <$> world_agents pair_close) 0 m e
                                = true)
                          (seq 0 (length (world_agents pair_close))))))%R.
Proof.
  destruct (reward_first_succeeds flag_collides surface_distance pair_close)
    as (s' & r & Hr).
  - discriminate.
  - apply pair_close_baselines.
  - destruct (reward_Ok _ _ _ _ _ _ Hr) as (a' & Ha' & _).
    exists s', r, a'. split; [exact Hr|]. split; [exact Ha'|]. intros e.
    exact (collision_penalty_counts_partners _ _ _ _ _ _ _ e Hr Ha').
Defined.

Lemma observation_layout_witness :
  ∃ obs, observation full_range_lidar pair_start 1 = Ok obs
    ∧ take 4 (obs !!! 0%fin) = [1%R; 0%R; 0%R; 0%R].
Proof.
  eexists. split; [reflexivity|].
  exact (proj1 (observation_layout full_range_lidar pair_start 1 0%fin _
                  (pair_agent (1%R, 0%R) (3%R, 0%R)) eq_refl eq_refl)).
Defined.
